(** * COMIC-AI: key rotation, the resilient Gemini call and the panel pipeline

    A shallow embedding of
      - [services/apiKeyManager.ts]  (the key pool and its round-robin cursor),
      - [services/geminiService.ts]  (error classification, [geminiApiCall],
        the placeholder image and the three panel services),
      - [App.tsx]                    (the story, regenerate and edit handlers),
    followed by the properties of the specification that concern them.

    Conventions.  JavaScript strings are byte strings ([string]); [null] and
    [undefined] of an optional field are both [None], the handlers only test
    such fields for truthiness.  Mutable module and component state lives in
    one [Machine] record that every call threads explicitly, together with a
    trace of what an observer sees.  A project is open throughout; the
    loading indicators of the interface and the console are left out.  A
    call runs without another call of the program interleaved at its
    suspension points, except in the parallel lettering stage, which is
    modelled from the settled values of its calls and an arbitrary order of
    their fulfilment. *)

From Stdlib Require Import Ascii String QArith_base.
From stdpp Require Import base numbers option list sets sorting strings pretty.

Local Open Scope string_scope.
Local Open Scope list_scope.
Local Open Scope nat_scope.
Local Open Scope stdpp_scope.

(* ================================================================== *)
(** ** JavaScript strings *)
(* ================================================================== *)

Module Js.

(** The double quote and the line feed, written by their codes. *)
Definition dq : string := String (ascii_of_nat 34) EmptyString.
Definition lf : string := String (ascii_of_nat 10) EmptyString.

(** [q s] is [s] between double quotes. *)
Definition q (s : string) : string := dq +:+ s +:+ dq.

(** Truthiness of a string: only the empty string is falsy. *)
Definition truthy (s : string) : bool :=
  match s with EmptyString => false | String _ _ => true end.

(** Truthiness of an optional string field ([null], [undefined] and the
    empty string are falsy). *)
Definition truthyOpt (o : option string) : bool :=
  match o with Some s => truthy s | None => false end.

Definition lowerAscii (c : ascii) : ascii :=
  let n := nat_of_ascii c in
  if (65 <=? n) && (n <=? 90) then ascii_of_nat (n + 32) else c.

(** [String.prototype.toLowerCase] on the ASCII range. *)
Fixpoint toLowerCase (s : string) : string :=
  match s with
  | EmptyString => EmptyString
  | String c t => String (lowerAscii c) (toLowerCase t)
  end.

(** [hay.includes(needle)]. *)
Fixpoint includes (needle hay : string) : bool :=
  String.prefix needle hay ||
  match hay with
  | EmptyString => false
  | String _ t => includes needle t
  end.

(** *** [btoa]: base64 of a byte string *)

Definition b64alphabet : string :=
  "ABCDEFGHIJKLMNOPQRSTUVWXYZabcdefghijklmnopqrstuvwxyz0123456789+/".

Definition b64char (n : nat) : ascii :=
  match String.get n b64alphabet with
  | Some c => c
  | None => "="%char
  end.

Fixpoint btoaBytes (l : list nat) : string :=
  match l with
  | [] => EmptyString
  | [a] =>
      String (b64char (a / 4))
        (String (b64char ((a mod 4) * 16)) "==")
  | [a; b] =>
      String (b64char (a / 4))
        (String (b64char ((a mod 4) * 16 + b / 16))
           (String (b64char ((b mod 16) * 4)) "="))
  | a :: b :: c :: rest =>
      String (b64char (a / 4))
        (String (b64char ((a mod 4) * 16 + b / 16))
           (String (b64char ((b mod 16) * 4 + c / 64))
              (String (b64char (c mod 64)) (btoaBytes rest))))
  end.

Definition bytes (s : string) : list nat :=
  nat_of_ascii <$> list_ascii_of_string s.

Definition btoa (s : string) : string := btoaBytes (bytes s).

End Js.

(* ================================================================== *)
(** ** Errors and results *)
(* ================================================================== *)

(** What a [catch] clause can receive: a plain [Error] (with its [name]),
    the service's own [GeminiApiError], or a thrown value that is not an
    [Error], known by its string conversion. *)
Inductive JsError : Type :=
| ErrorObj (name message : string)
| GeminiApiError (message userFriendlyMessage : string)
| ThrownValue (text : string).

Global Instance JsError_eq_dec : EqDecision JsError.
Proof. solve_decision. Defined.

(** [Error.prototype.toString]: the name, then the message after a colon,
    either one alone when the other is empty. *)
Definition errorToString (name message : string) : string :=
  match name, message with
  | EmptyString, _ => message
  | _, EmptyString => name
  | _, _ => name +:+ ": " +:+ message
  end.

Definition toString (error : JsError) : string :=
  match error with
  | ErrorObj name message => errorToString name message
  | GeminiApiError message _ => errorToString "GeminiApiError" message
  | ThrownValue text => text
  end.

(** [error instanceof GeminiApiError] and [error instanceof Error]. *)
Definition instanceofGeminiApiError (error : JsError) : bool :=
  match error with GeminiApiError _ _ => true | _ => false end.

Definition instanceofError (error : JsError) : bool :=
  match error with ThrownValue _ => false | _ => true end.

(** [error.message] of an [Error]. *)
Definition messageOf (error : JsError) : string :=
  match error with
  | ErrorObj _ message => message
  | GeminiApiError message _ => message
  | ThrownValue text => text
  end.

(** [isRateLimitError] of geminiService.ts. *)
Definition isRateLimitError (error : JsError) : bool :=
  let errorMessage := Js.toLowerCase (toString error) in
  Js.includes "rate limit" errorMessage ||
  Js.includes "quota" errorMessage ||
  Js.includes "resource_exhausted" errorMessage.

(** The outcome of a call that may throw. *)
Inductive Result (A : Type) : Type :=
| Ok (value : A)
| Throw (error : JsError).
Arguments Ok {A} value.
Arguments Throw {A} error.

(* ================================================================== *)
(** ** services/apiKeyManager.ts *)
(* ================================================================== *)

Module KeyManager.

(** The pool built when the module loads: the environment key first, then
    the keys listed in the file, empty entries dropped; loading fails on an
    empty pool. *)
Definition loadApiKeys (envApiKey : option string) (userApiKeys : list string)
  : Result (list string) :=
  let apiKeys :=
    filter (λ key, Js.truthy key = true)
      ((if Js.truthyOpt envApiKey then option_list envApiKey else [])
         ++ userApiKeys) in
  if decide (length apiKeys = 0)
  then Throw (ErrorObj "Error"
    "No API_KEY is configured. Please set the environment variable or add keys to apiKeyManager.ts")
  else Ok apiKeys.

Section Pool.
Variable apiKeys : list string.

Definition getApiKeys : list string := apiKeys.

Definition getTotalKeys : nat := length apiKeys.

(** [getNextKey]: the key under the cursor ([None] is [undefined], past
    the end of the array), the cursor itself, and the advanced cursor. *)
Definition getNextKey (currentKeyIndex : nat) : (option string * nat) * nat :=
  let key := apiKeys !! currentKeyIndex in
  let index := currentKeyIndex in
  ((key, index), (currentKeyIndex + 1) mod length apiKeys).

(** The indices returned by [n] calls in immediate sequence, with the
    cursor they leave. *)
Fixpoint nextIndices (n : nat) (currentKeyIndex : nat) : list nat * nat :=
  match n with
  | 0 => ([], currentKeyIndex)
  | S n' =>
      let '((_, index), cursor) := getNextKey currentKeyIndex in
      let '(rest, final) := nextIndices n' cursor in
      (index :: rest, final)
  end.
End Pool.

(** The cursor of a freshly loaded module. *)
Definition initialKeyIndex : nat := 0.

End KeyManager.

(* ================================================================== *)
(** ** types.ts *)
(* ================================================================== *)

Inductive Layout : Type := standard | wide | tall | splash.

Record SFX : Type := { sfxText : string; sfxStyle : string }.

Record DialogueLine : Type := { character : string; line : string }.

Inductive LetteringType : Type :=
| dialogueType | narrationType | thoughtType | shoutType.

Inductive FontWeight : Type := normalWeight | boldWeight.

Inductive TextAlign : Type := alignLeft | alignCenter | alignRight.

Record LetteringElement : Type := {
  elId : string;
  elType : LetteringType;
  elText : string;
  elX : Q; elY : Q; elWidth : Q; elHeight : Q;
  elFontWeight : FontWeight;
  elTextAlign : TextAlign;
  elFontFamily : string;
  elFontSize : Q;
  elColor : string;
  elFillColor : string;
  elTail : option (Q * Q)
}.

Record StoryPage : Type := {
  page : nat;
  description : string;
  narration : string;
  dialogue : list DialogueLine;
  image : option string;
  isGenerating : option bool;
  isLettering : option bool;
  layout : Layout;
  sfx : option SFX;
  lettering : option (list LetteringElement);
  generationFailed : option bool;
  failureReason : option string
}.

(** Object spread with one field replaced: [{ ...p, field: v }]. *)
Definition withImage (v : option string) (p : StoryPage) : StoryPage :=
  {| page := page p; description := description p; narration := narration p;
     dialogue := dialogue p; image := v; isGenerating := isGenerating p;
     isLettering := isLettering p; layout := layout p; sfx := sfx p;
     lettering := lettering p; generationFailed := generationFailed p;
     failureReason := failureReason p |}.

Definition withIsGenerating (v : option bool) (p : StoryPage) : StoryPage :=
  {| page := page p; description := description p; narration := narration p;
     dialogue := dialogue p; image := image p; isGenerating := v;
     isLettering := isLettering p; layout := layout p; sfx := sfx p;
     lettering := lettering p; generationFailed := generationFailed p;
     failureReason := failureReason p |}.

Definition withIsLettering (v : option bool) (p : StoryPage) : StoryPage :=
  {| page := page p; description := description p; narration := narration p;
     dialogue := dialogue p; image := image p; isGenerating := isGenerating p;
     isLettering := v; layout := layout p; sfx := sfx p;
     lettering := lettering p; generationFailed := generationFailed p;
     failureReason := failureReason p |}.

Definition withLettering (v : option (list LetteringElement)) (p : StoryPage)
  : StoryPage :=
  {| page := page p; description := description p; narration := narration p;
     dialogue := dialogue p; image := image p; isGenerating := isGenerating p;
     isLettering := isLettering p; layout := layout p; sfx := sfx p;
     lettering := v; generationFailed := generationFailed p;
     failureReason := failureReason p |}.

Definition withGenerationFailed (v : option bool) (p : StoryPage) : StoryPage :=
  {| page := page p; description := description p; narration := narration p;
     dialogue := dialogue p; image := image p; isGenerating := isGenerating p;
     isLettering := isLettering p; layout := layout p; sfx := sfx p;
     lettering := lettering p; generationFailed := v;
     failureReason := failureReason p |}.

Definition withFailureReason (v : option string) (p : StoryPage) : StoryPage :=
  {| page := page p; description := description p; narration := narration p;
     dialogue := dialogue p; image := image p; isGenerating := isGenerating p;
     isLettering := isLettering p; layout := layout p; sfx := sfx p;
     lettering := lettering p; generationFailed := generationFailed p;
     failureReason := v |}.

(** [pages.map((p, idx) => idx === i ? f(p) : p)]. *)
Definition mapAt (i : nat) (f : StoryPage → StoryPage) (pages : list StoryPage)
  : list StoryPage :=
  imap (λ idx p, if decide (idx = i) then f p else p) pages.

(** [pages.map((p, idx) => idx >= i ? f(p) : p)]. *)
Definition mapFrom (i : nat) (f : StoryPage → StoryPage) (pages : list StoryPage)
  : list StoryPage :=
  imap (λ idx p, if decide (i ≤ idx) then f p else p) pages.

(* ================================================================== *)
(** ** The machine: module state, component state and the backend *)
(* ================================================================== *)

(** What the run leaves behind for an observer. *)
Inductive Event : Type :=
| Attempt (index : nat) (key : option string)
    (** [geminiApiCall] built a client for [key] and invoked the operation *)
| Publish (pages : list StoryPage)
    (** [updateCurrentProject({ storyPages: pages })] *)
| Alert (message : string)
| LetteringDispatched (index : nat) (base64ImageData : string).
    (** the parallel stage started [analyzePanelForLettering] for a panel *)

(** The arguments of [generatePanelImage] that vary from panel to panel; the
    project's characters, scenery, styles and story text are fixed during a
    run and belong to the backend's world. *)
Record PanelRequest : Type := {
  reqDescription : string;
  reqSfx : option SFX;
  reqLayout : Layout;
  reqPreviousPanelImage : option string
}.

Inductive Request : Type :=
| PanelImageRequest (r : PanelRequest)
| EditImageRequest (base64ImageData prompt : string).

(** [response?.candidates?.[0]?.content?.parts]: absent, or the parts, each
    with its [inlineData.data] when it has one. *)
Definition Response : Type := option (list (option string)).

(** The first part that carries inline data. *)
Fixpoint firstInlineData (parts : list (option string)) : option string :=
  match parts with
  | [] => None
  | Some data :: _ => Some data
  | None :: rest => firstInlineData rest
  end.

(** [createPlaceholderSvgDataUrl]. *)
Definition placeholderSvg (text : string) : string :=
  Js.lf +:+
  "    <svg width=" +:+ Js.q "512" +:+ " height=" +:+ Js.q "512" +:+
  " viewBox=" +:+ Js.q "0 0 512 512" +:+
  " xmlns=" +:+ Js.q "http://www.w3.org/2000/svg" +:+
  " style=" +:+ Js.q "background-color:#4A5568;" +:+ ">" +:+ Js.lf +:+
  "      <style>" +:+ Js.lf +:+
  "        .title { fill: #FBBF24; font-size: 32px; font-family: 'Bangers', cursive, sans-serif; text-anchor: middle; }" +:+ Js.lf +:+
  "        .text { fill: #E2E8F0; font-size: 24px; font-family: 'Inter', sans-serif; text-anchor: middle; white-space: pre-wrap; }" +:+ Js.lf +:+
  "      </style>" +:+ Js.lf +:+
  "      <text x=" +:+ Js.q "50%" +:+ " y=" +:+ Js.q "45%" +:+
  " class=" +:+ Js.q "title" +:+ ">GENERATION FAILED</text>" +:+ Js.lf +:+
  "      <text x=" +:+ Js.q "50%" +:+ " y=" +:+ Js.q "60%" +:+
  " class=" +:+ Js.q "text" +:+ ">" +:+ text +:+ "</text>" +:+ Js.lf +:+
  "    </svg>" +:+ Js.lf +:+
  "  ".

Definition createPlaceholderSvgDataUrl (text : string) : string :=
  "data:image/svg+xml;base64," +:+ Js.btoa (placeholderSvg text).

Definition allKeysRateLimited : JsError :=
  GeminiApiError
    "All API keys have reached their rate limits."
    "All available API keys have reached their daily limit. Please try again tomorrow or add new keys.".

Definition noKeysAvailable : JsError :=
  ErrorObj "Error" "No API keys are available or all have failed.".


Section Service.

(** The backend's world: everything outside the program that decides how a
    request is answered. *)
Context {W : Type}.

(** The pool of apiKeyManager.ts. *)
Variable apiKeys : list string.

(** [ai.models.generateContent] of a client built for a key, for the two
    image operations. *)
Variable generateContent : option string → Request → W → Result Response * W.

(** The operation [analyzePanelForLettering] hands to [geminiApiCall]: the
    prompt, the model call, the parsing of its JSON answer and the fresh ids
    of the elements. *)
Variable letteringLogic :
  string → list DialogueLine → string → option string → W →
  Result (list LetteringElement) * W.

Record Machine : Type := {
  currentKeyIndex : nat;          (** [currentKeyIndex] of apiKeyManager.ts *)
  world : W;
  generationCancelledRef : bool;  (** [generationCancelledRef.current] *)
  storyPages : list StoryPage;    (** [currentProject.storyPages] *)
  trace : list Event
}.

Definition setKeyIndex (cursor : nat) (s : Machine) : Machine :=
  {| currentKeyIndex := cursor; world := world s;
     generationCancelledRef := generationCancelledRef s;
     storyPages := storyPages s; trace := trace s |}.

Definition setWorld (w : W) (s : Machine) : Machine :=
  {| currentKeyIndex := currentKeyIndex s; world := w;
     generationCancelledRef := generationCancelledRef s;
     storyPages := storyPages s; trace := trace s |}.

Definition setCancelled (b : bool) (s : Machine) : Machine :=
  {| currentKeyIndex := currentKeyIndex s; world := world s;
     generationCancelledRef := b;
     storyPages := storyPages s; trace := trace s |}.

Definition emit (e : Event) (s : Machine) : Machine :=
  {| currentKeyIndex := currentKeyIndex s; world := world s;
     generationCancelledRef := generationCancelledRef s;
     storyPages := storyPages s; trace := trace s ++ [e] |}.

(** A computation that may throw, over the machine. *)
Definition M (A : Type) : Type := Machine → Result A * Machine.

(** An operation handed to [geminiApiCall]: it sees the key of its client and
    the backend, never the key cursor. *)
Definition ApiLogic (T : Type) : Type := option string → W → Result T * W.

(** *** geminiService.ts: [geminiApiCall] *)

(** The [for] loop of [geminiApiCall] with [remaining] keys still to try, and
    what follows it once the keys are used up. *)
Fixpoint geminiApiLoop {T} (apiLogic : ApiLogic T) (remaining : nat)
    (lastError : JsError) : M T :=
  match remaining with
  | 0 => λ s,
      if isRateLimitError lastError
      then (Throw allKeysRateLimited, s)
      else (Throw lastError, s)
  | S remaining' => λ s,
      let '((key, index), cursor) :=
        KeyManager.getNextKey apiKeys (currentKeyIndex s) in
      let s1 := emit (Attempt index key) (setKeyIndex cursor s) in
      match apiLogic key (world s1) with
      | (Ok result, w) => (Ok result, setWorld w s1)
      | (Throw error, w) =>
          if isRateLimitError error
          then geminiApiLoop apiLogic remaining' error (setWorld w s1)
          else (Throw error, setWorld w s1)
      end
  end.

Definition geminiApiCall {T} (apiLogic : ApiLogic T) : M T :=
  let totalKeys := KeyManager.getTotalKeys apiKeys in
  geminiApiLoop apiLogic totalKeys noKeysAvailable.

(** *** geminiService.ts: the panel services *)

(** [error instanceof Error ? error.message : String(error)]. *)
Definition messageOrString (error : JsError) : string :=
  if instanceofError error then messageOf error else toString error.

(** The [catch] clause shared by [generatePanelImage] and [editPanelImage]:
    the exhausted pool becomes a placeholder image, a [GeminiApiError] is
    thrown again, anything else is wrapped. *)
Definition imageCatch (placeholderText unexpected : string) (error : JsError)
  : M string := λ s,
  if instanceofGeminiApiError error && Js.includes "rate limits" (messageOf error)
  then (Ok (createPlaceholderSvgDataUrl placeholderText), s)
  else if instanceofGeminiApiError error then (Throw error, s)
  else (Throw (GeminiApiError (messageOrString error) unexpected), s).

(** The operation of the two image services: ask the model, return the first
    inline image as a data URL, throw when the answer carries none. *)
Definition imageLogic (request : Request) (blocked : JsError) : ApiLogic string :=
  λ key w,
  match generateContent key request w with
  | (Ok response, w') =>
      match response ≫= firstInlineData with
      | Some data => (Ok ("data:image/png;base64," +:+ data), w')
      | None => (Throw blocked, w')
      end
  | (Throw error, w') => (Throw error, w')
  end.

(** The errors thrown when the model's answer carries no image. *)
Definition panelBlocked : JsError :=
  GeminiApiError
    "No image was generated for the story panel."
    "The panel generation was blocked, possibly due to a content safety filter. Please try regenerating or modifying the story.".

Definition editBlocked : JsError :=
  GeminiApiError
    "No edited image was generated."
    "The image edit was blocked, possibly due to a content safety filter. Please try a different edit prompt.".

Definition generatePanelImage (request : PanelRequest) : M string := λ s,
  match
    geminiApiCall
      (imageLogic (PanelImageRequest request) panelBlocked) s
  with
  | (Ok result, s') => (Ok result, s')
  | (Throw error, s') =>
      imageCatch "API Limit Reached"
        "An unexpected error occurred while generating the panel image." error s'
  end.

Definition editPanelImage (base64ImageData prompt : string) : M string := λ s,
  match
    geminiApiCall
      (imageLogic (EditImageRequest base64ImageData prompt) editBlocked) s
  with
  | (Ok result, s') => (Ok result, s')
  | (Throw error, s') =>
      imageCatch "API Limit: Edit Failed"
        "An unexpected error occurred while editing the panel." error s'
  end.

Definition analyzePanelForLettering (base64ImageData : string)
    (dialogue : list DialogueLine) (narration : string)
  : M (list LetteringElement) := λ s,
  if negb (Js.truthy narration) && (length dialogue =? 0)
  then (Ok [], s)
  else
    match geminiApiCall (letteringLogic base64ImageData dialogue narration) s with
    | (Ok result, s') => (Ok result, s')
    | (Throw error, s') =>
        if instanceofGeminiApiError error then (Throw error, s')
        else (Throw (GeminiApiError (messageOrString error)
                "An unexpected error occurred during text placement analysis."), s')
    end.

(* ------------------------------------------------------------------ *)
(** *** App.tsx: state updates *)

(** [updateCurrentProject({ storyPages: pages })]: the project state is
    replaced and the observer sees the new panel list. *)
Definition updateCurrentProject (pages : list StoryPage) (s : Machine) : Machine :=
  emit (Publish pages)
    {| currentKeyIndex := currentKeyIndex s; world := world s;
       generationCancelledRef := generationCancelledRef s;
       storyPages := pages; trace := trace s |}.

Definition handleCancelGeneration (s : Machine) : Machine :=
  setCancelled true s.

(** [await m] in a handler: while the handler is suspended the user may
    press Cancel ([click]), which runs [handleCancelGeneration]. *)
Definition awaiting {A} (click : bool) (m : M A) : M A := λ s,
  let '(r, s') := m s in
  (r, if click then handleCancelGeneration s' else s').

(** [(e instanceof GeminiApiError) ? e.userFriendlyMessage : fallback]. *)
Definition friendlyOr (fallback : string) (error : JsError) : string :=
  match error with
  | GeminiApiError _ userFriendlyMessage => userFriendlyMessage
  | _ => fallback
  end.

(* ------------------------------------------------------------------ *)
(** *** App.tsx: [handleGenerateStory] *)

(** The panel as the script stage hands it to the image stage. *)
Definition initialPage (p : StoryPage) : StoryPage :=
  withGenerationFailed (Some false)
    (withLettering None (withIsGenerating (Some true) p)).

(** What a cancelled run writes on every panel it did not reach. *)
Definition cancelledPage (p : StoryPage) : StoryPage :=
  withFailureReason (Some "Generation was cancelled.")
    (withGenerationFailed (Some true) (withIsGenerating (Some false) p)).

(** What a successful image call writes on its panel. *)
Definition imageReady (panelImage : string) (p : StoryPage) : StoryPage :=
  withIsLettering (Some true)
    (withIsGenerating (Some false) (withImage (Some panelImage) p)).

(** What the [catch] of the image stage writes on its panel. *)
Definition panelFailed (reason : string) (p : StoryPage) : StoryPage :=
  withImage None
    (withFailureReason (Some reason)
       (withGenerationFailed (Some true)
          (withIsLettering (Some false) (withIsGenerating (Some false) p)))).

(** The arguments of the image call for panel [i]: its own description,
    sound effect and layout, and the image of the panel before it. *)
Definition panelRequestAt (i : nat) (pages : list StoryPage) (p : StoryPage)
  : PanelRequest :=
  {| reqDescription := description p;
     reqSfx := sfx p;
     reqLayout := layout p;
     reqPreviousPanelImage :=
       if 0 <? i then pages !! (i - 1) ≫= image else None |}.

(** Reading a field of [pagesWithImages[i]] when there is no such panel. *)
Definition undefinedPanel : JsError :=
  ErrorObj "TypeError" "Cannot read properties of undefined".

(** The [catch (panelError)] clause of the loop body. *)
Definition imageIterationCatch (i : nat) (pages : list StoryPage)
    (panelError : JsError) (s : Machine) : list StoryPage * Machine :=
  let reason := friendlyOr "An unknown error occurred." panelError in
  let pages' := mapAt i (panelFailed reason) pages in
  (pages', updateCurrentProject pages' s).

(** One pass through the body of the image loop, past the cancellation
    check: the [try] around [generatePanelImage] and its [catch]. *)
Definition imageIteration (click : bool) (i : nat) (pages : list StoryPage)
    (s : Machine) : list StoryPage * Machine :=
  match pages !! i with
  | None => imageIterationCatch i pages undefinedPanel s
  | Some p =>
      match awaiting click (generatePanelImage (panelRequestAt i pages p)) s with
      | (Ok panelImage, s') =>
          let pages' := mapAt i (imageReady panelImage) pages in
          (pages', updateCurrentProject pages' s')
      | (Throw panelError, s') => imageIterationCatch i pages panelError s'
      end
  end.

(** [for (let i = ...; i < totalPanels; i++)] with [remaining] iterations
    left; [clicks k] tells whether Cancel is pressed while panel [k] is being
    generated. *)
Fixpoint imageLoop (clicks : nat → bool) (remaining i : nat)
    (pages : list StoryPage) (s : Machine) : list StoryPage * Machine :=
  match remaining with
  | 0 => (pages, s)
  | S remaining' =>
      if generationCancelledRef s
      then
        let pages' := mapFrom i cancelledPage pages in
        (pages', updateCurrentProject pages' s)
      else
        let '(pages', s') := imageIteration (clicks i) i pages s in
        imageLoop clicks remaining' (S i) pages' s'
  end.

(** What one lettering promise of the parallel stage is fulfilled with. *)
Record LetteringResult : Type := {
  resIndex : nat;
  resLettering : option (list LetteringElement);
  resError : option JsError
}.

(** The settled value of the [analyzePanelForLettering] call started for a
    panel of the parallel stage.  The calls of that stage interleave at their
    suspension points; the stage is modelled from their settled values and
    their effect on the key cursor and the backend is not followed. *)
Definition Settled : Type :=
  nat → string → list DialogueLine → string → Result (list LetteringElement).

(** [page.image && !page.generationFailed]. *)
Definition letteringEligible (p : StoryPage) : bool :=
  Js.truthyOpt (image p) && negb (bool_decide (generationFailed p = Some true)).

(** The value the promise built for panel [i] is fulfilled with ([None] is
    [null]); the [then] and [catch] wrappers make it never reject. *)
Definition letteringPromise (settled : Settled) (i : nat) (p : StoryPage)
  : option LetteringResult :=
  if letteringEligible p then
    match image p with
    | Some base64ImageData =>
        Some
          match settled i base64ImageData (dialogue p) (narration p) with
          | Ok letteringData =>
              {| resIndex := i; resLettering := Some letteringData;
                 resError := None |}
          | Throw error =>
              {| resIndex := i; resLettering := None; resError := Some error |}
          end
    | None => None
    end
  else None.

(** The calls the parallel stage starts, in panel order. *)
Definition letteringDispatches_at (i : nat) (p : StoryPage) : list Event :=
  if letteringEligible p
  then option_list (LetteringDispatched i <$> image p)
  else [].

Definition letteringDispatches (pages : list StoryPage) : list Event :=
  concat (imap letteringDispatches_at pages).

(** [Promise.all(promises)]: each fulfilment stores its value in the slot of
    its promise, whatever the order of the fulfilments ([order]); the result
    exists once every slot is filled. *)
Definition fulfil {A} (values : list A) (slots : list (option A)) (k : nat)
  : list (option A) :=
  match values !! k with
  | Some v => <[k := Some v]> slots
  | None => slots
  end.

Definition promiseAll {A} (values : list A) (order : list nat)
  : option (list A) :=
  mapM id (foldl (fulfil values) (replicate (length values) None) order).

(** The body of [letteringResults.forEach].  [result.index] is the position
    of the promise in the array, so the assignment never falls outside
    [finalPages]; there the model leaves the list as it is. *)
Definition mergeLettering (finalPages : list StoryPage)
    (result : option LetteringResult) : list StoryPage :=
  match result with
  | Some r =>
      match finalPages !! resIndex r with
      | Some p =>
          <[resIndex r :=
              withIsLettering (Some false) (withLettering (resLettering r) p)]>
            finalPages
      | None => finalPages
      end
  | None => finalPages
  end.

(** The parallel lettering stage: [None] while some promise is pending. *)
Definition letteringStage (settled : Settled) (order : list nat)
    (pagesWithImages : list StoryPage) : option (list StoryPage) :=
  let letteringPromises := imap (letteringPromise settled) pagesWithImages in
  letteringResults ← promiseAll letteringPromises order;
  Some (foldl mergeLettering pagesWithImages letteringResults).

(** The message of the outer [catch]. *)
Definition scriptErrorMessage (error : JsError) : string :=
  match error with
  | GeminiApiError _ userFriendlyMessage => userFriendlyMessage
  | ErrorObj _ message => message
  | ThrownValue _ => "An unknown error occurred."
  end.

(** [handleGenerateStory].  [generateStory] is the script service applied to
    the chapter text; [clickScript] and [clicks] place the presses of Cancel;
    [settled] and [order] describe the parallel lettering calls.  When a
    lettering promise never settles the handler stays suspended at
    [Promise.all]: the machine is returned as it stands there. *)
Definition handleGenerateStory (generateStory : M (list StoryPage))
    (clickScript : bool) (clicks : nat → bool)
    (settled : Settled) (order : list nat) (s : Machine) : Machine :=
  let s0 := setCancelled false s in
  match awaiting clickScript generateStory s0 with
  | (Throw error, s1) =>
      setCancelled false
        (emit (Alert ("Story Script Generation Failed: "
                       +:+ scriptErrorMessage error)) s1)
  | (Ok generatedPages, s1) =>
      let pagesWithImages := initialPage <$> generatedPages in
      let s2 := updateCurrentProject pagesWithImages s1 in
      let totalPanels := length generatedPages in
      let '(pagesWithImages, s3) :=
        imageLoop clicks totalPanels 0 pagesWithImages s2 in
      if generationCancelledRef s3
      then setCancelled false s3
      else
        let s4 :=
          foldl (λ st e, emit e st) s3 (letteringDispatches pagesWithImages) in
        match letteringStage settled order pagesWithImages with
        | Some finalPages =>
            setCancelled false (updateCurrentProject finalPages s4)
        | None => s4
        end
  end.

(* ------------------------------------------------------------------ *)
(** *** App.tsx: [handleRegeneratePanel] *)

Definition regenerateReset (p : StoryPage) : StoryPage :=
  withFailureReason None
    (withGenerationFailed (Some false)
       (withLettering None
          (withImage None
             (withIsLettering (Some false) (withIsGenerating (Some true) p))))).

Definition lettered (letteringData : list LetteringElement) (p : StoryPage)
  : StoryPage :=
  withIsLettering (Some false) (withLettering (Some letteringData) p).

Definition regenerateFailed (reason : string) (p : StoryPage) : StoryPage :=
  withFailureReason (Some reason)
    (withGenerationFailed (Some true)
       (withIsLettering (Some false) (withIsGenerating (Some false) p))).

(** The [catch] clause: it starts again from the pages the handler was
    called with. *)
Definition regenerateCatch (pageIndex : nat) (original : list StoryPage)
    (error : JsError) (s : Machine) : Machine :=
  let reason :=
    friendlyOr "An unknown error occurred during regeneration." error in
  updateCurrentProject (mapAt pageIndex (regenerateFailed reason) original) s.

Definition handleRegeneratePanel (pageIndex : nat) (s : Machine) : Machine :=
  let original := storyPages s in
  match original !! pageIndex with
  | None => s
  | Some pageToRegen =>
      let pagesInProgress := mapAt pageIndex regenerateReset original in
      let s1 := updateCurrentProject pagesInProgress s in
      match generatePanelImage (panelRequestAt pageIndex original pageToRegen) s1 with
      | (Throw error, s2) => regenerateCatch pageIndex original error s2
      | (Ok panelImage, s2) =>
          let pagesInProgress :=
            mapAt pageIndex (imageReady panelImage) pagesInProgress in
          let s3 := updateCurrentProject pagesInProgress s2 in
          match
            analyzePanelForLettering panelImage (dialogue pageToRegen)
              (narration pageToRegen) s3
          with
          | (Throw error, s4) => regenerateCatch pageIndex original error s4
          | (Ok letteringData, s4) =>
              updateCurrentProject
                (mapAt pageIndex (lettered letteringData) pagesInProgress) s4
          end
      end
  end.

(* ------------------------------------------------------------------ *)
(** *** App.tsx: [handleEditPanel] *)

Definition editStarted (p : StoryPage) : StoryPage :=
  withLettering None (withIsGenerating (Some true) p).

Definition editStopped (p : StoryPage) : StoryPage :=
  withIsLettering (Some false) (withIsGenerating (Some false) p).

(** The text of the [alert] in the [catch] clause. *)
Definition editAlert (pageIndex : nat) (error : JsError) : string :=
  match error with
  | GeminiApiError _ userFriendlyMessage =>
      "Panel Edit Failed: " +:+ userFriendlyMessage
  | ErrorObj _ message => "An unexpected error occurred: " +:+ message
  | ThrownValue _ =>
      "An unknown error occurred while editing panel "
        +:+ pretty (pageIndex + 1) +:+ "."
  end.

(** The [catch] clause: it goes on from the pages in progress. *)
Definition editCatch (pageIndex : nat) (pagesInProgress : list StoryPage)
    (error : JsError) (s : Machine) : Machine :=
  updateCurrentProject (mapAt pageIndex editStopped pagesInProgress)
    (emit (Alert (editAlert pageIndex error)) s).

Definition handleEditPanel (pageIndex : nat) (editPrompt : string)
    (s : Machine) : Machine :=
  let original := storyPages s in
  match original !! pageIndex with
  | None => s
  | Some pageToEdit =>
      match image pageToEdit with
      | None => s
      | Some pageImage =>
          if negb (Js.truthy pageImage) then s
          else
            let pagesInProgress := mapAt pageIndex editStarted original in
            let s1 := updateCurrentProject pagesInProgress s in
            match editPanelImage pageImage editPrompt s1 with
            | (Throw error, s2) => editCatch pageIndex pagesInProgress error s2
            | (Ok editedImage, s2) =>
                let pagesInProgress :=
                  mapAt pageIndex (imageReady editedImage) pagesInProgress in
                let s3 := updateCurrentProject pagesInProgress s2 in
                match
                  analyzePanelForLettering editedImage (dialogue pageToEdit)
                    (narration pageToEdit) s3
                with
                | (Throw error, s4) =>
                    editCatch pageIndex pagesInProgress error s4
                | (Ok letteringData, s4) =>
                    updateCurrentProject
                      (mapAt pageIndex (lettered letteringData) pagesInProgress)
                      s4
                end
            end
      end
  end.

End Service.

(* ================================================================== *)
(** ** geminiService.ts: the remaining helpers and services *)
(* ================================================================== *)

(** [s.split(sep)] for a one-character separator: never empty, the pieces
    between the separators in order. *)
Fixpoint splitOn (sep : ascii) (s : string) : list string :=
  match s with
  | EmptyString => [EmptyString]
  | String c t =>
      if decide (c = sep) then EmptyString :: splitOn sep t
      else
        match splitOn sep t with
        | piece :: pieces => String c piece :: pieces
        | [] => [String c EmptyString]
        end
  end.

(** [fileToBase64]: the piece after the first comma of a data URL, the
    string itself when it has no comma. *)
Definition fileToBase64 (base64 : string) : string :=
  let parts := splitOn "," base64 in
  if decide (1 < length parts)
  then match parts !! 1 with Some part => part | None => base64 end
  else base64.

(** White space of [String.prototype.trim], on the ASCII range. *)
Definition isWhiteSpace (c : ascii) : bool :=
  let n := nat_of_ascii c in
  (n =? 32) || ((9 <=? n) && (n <=? 13)).

Fixpoint trimStart (s : string) : string :=
  match s with
  | EmptyString => EmptyString
  | String c t => if isWhiteSpace c then trimStart t else s
  end.

Definition trim (s : string) : string :=
  String.rev (trimStart (String.rev (trimStart s))).

(** [pages.sort((a, b) => a.page - b.page)]: the sort of arrays is stable,
    so the result is the one ordering by page number that keeps panels of
    equal number in their order; built here by insertion. *)
Fixpoint insertByPage (p : StoryPage) (sorted : list StoryPage) : list StoryPage :=
  match sorted with
  | [] => [p]
  | q :: rest =>
      if page p <=? page q then p :: q :: rest
      else q :: insertByPage p rest
  end.

Fixpoint sortByPage (pages : list StoryPage) : list StoryPage :=
  match pages with
  | [] => []
  | p :: rest => insertByPage p (sortByPage rest)
  end.

Definition scriptEmpty : JsError :=
  GeminiApiError
    "Story generation failed: The API returned an empty response."
    "The story script generation was blocked, possibly due to a content safety filter. Please try modifying the chapter text.".

Definition scriptUnparsable : JsError :=
  GeminiApiError
    "Failed to parse story generation response."
    "The API returned an invalid format for the story script. Please try again.".

(** One entry of the key test. *)
Inductive KeyStatus : Type := statusOk | statusError.

Record ApiKeyStatus : Type := {
  keyIdentifier : string;
  status : KeyStatus;
  statusMessage : string
}.

(** The message [testApiKeys] reports for a failed probe. *)
Definition probeMessage (error : JsError) : string :=
  if instanceofError error then
    if isRateLimitError error then "Quota limit reached."
    else if Js.includes "API key not valid" (messageOf error)
    then "Invalid API key."
    else String.substring 0 100 (messageOf error)
  else "An unknown error occurred.".

(** The value the promise of [testApiKeys] for one key is fulfilled with;
    [probe index key] is the settled outcome of the test request sent with
    that key. *)
Definition keyStatus (probe : nat → string → Result unit) (index : nat)
    (key : string) : ApiKeyStatus :=
  let keyIdentifier := "API Key " +:+ pretty (index + 1) in
  match probe index key with
  | Ok _ =>
      {| keyIdentifier := keyIdentifier; status := statusOk;
         statusMessage := "Active" |}
  | Throw error =>
      {| keyIdentifier := keyIdentifier; status := statusError;
         statusMessage := probeMessage error |}
  end.

(** [testApiKeys]: every key of the pool is probed with a client of its own,
    outside [geminiApiCall] and the key cursor; [None] while a probe is
    pending. *)
Definition testApiKeys (apiKeys : list string)
    (probe : nat → string → Result unit) (order : list nat)
  : option (list ApiKeyStatus) :=
  let keys := KeyManager.getApiKeys apiKeys in
  promiseAll (imap (keyStatus probe) keys) order.

Section Script.
Context {W : Type}.
Variable apiKeys : list string.

(** [response.text] of the script request sent with a key for a chapter
    ([None] is [undefined]). *)
Variable generateScript :
  option string → string → W → Result (option string) * W.

(** [JSON.parse] of the answer, read as a list of panels; [None] when
    parsing, or sorting what was parsed, throws. *)
Variable parseScript : string → option (list StoryPage).

(** The operation of [generateStory]. *)
Definition storyLogic (chapterText : string) : ApiLogic (W:=W) (list StoryPage) :=
  λ key w,
  match generateScript key chapterText w with
  | (Throw error, w') => (Throw error, w')
  | (Ok text, w') =>
      match trim <$> text with
      | Some responseText =>
          if Js.truthy responseText then
            match parseScript responseText with
            | Some parsedResponse => (Ok (sortByPage parsedResponse), w')
            | None => (Throw scriptUnparsable, w')
            end
          else (Throw scriptEmpty, w')
      | None => (Throw scriptEmpty, w')
      end
  end.

Definition generateStory (chapterText : string) : M (W:=W) (list StoryPage) :=
  λ s,
  match geminiApiCall apiKeys (storyLogic chapterText) s with
  | (Ok result, s') => (Ok result, s')
  | (Throw error, s') =>
      if instanceofGeminiApiError error then (Throw error, s')
      else (Throw (GeminiApiError (messageOrString error)
              "An unexpected error occurred while generating the story script."), s')
  end.

End Script.

(* ================================================================== *)
(** ** App.tsx: lettering edits and panel order *)
(* ================================================================== *)

(** [Partial<LetteringElement>]: the fields an update carries. *)
Record LetteringUpdates : Type := {
  updId : option string;
  updType : option LetteringType;
  updText : option string;
  updX : option Q; updY : option Q;
  updWidth : option Q; updHeight : option Q;
  updFontWeight : option FontWeight;
  updTextAlign : option TextAlign;
  updFontFamily : option string;
  updFontSize : option Q;
  updColor : option string;
  updFillColor : option string;
  updTail : option (Q * Q)
}.

(** [{ ...el, ...updates }]. *)
Definition applyUpdates (el : LetteringElement) (updates : LetteringUpdates)
  : LetteringElement :=
  {| elId := default (elId el) (updId updates);
     elType := default (elType el) (updType updates);
     elText := default (elText el) (updText updates);
     elX := default (elX el) (updX updates);
     elY := default (elY el) (updY updates);
     elWidth := default (elWidth el) (updWidth updates);
     elHeight := default (elHeight el) (updHeight updates);
     elFontWeight := default (elFontWeight el) (updFontWeight updates);
     elTextAlign := default (elTextAlign el) (updTextAlign updates);
     elFontFamily := default (elFontFamily el) (updFontFamily updates);
     elFontSize := default (elFontSize el) (updFontSize updates);
     elColor := default (elColor el) (updColor updates);
     elFillColor := default (elFillColor el) (updFillColor updates);
     elTail := match updTail updates with
               | Some tail => Some tail
               | None => elTail el
               end |}.

(** The element [handleAddLetteringElement] builds: the dialogue defaults,
    then what the [switch] on the type overrides. *)
Definition newLetteringElement (id : string) (type : LetteringType)
  : LetteringElement :=
  {| elId := id;
     elType := type;
     elText := match type with
               | narrationType => "New narration..."
               | thoughtType => "New thought..."
               | shoutType => "NEW SHOUT!"
               | dialogueType => "New dialogue..."
               end;
     elX := 25 # 1; elY := 25 # 1; elWidth := 50 # 1; elHeight := 20 # 1;
     elFontWeight := match type with
                     | narrationType | shoutType => boldWeight
                     | _ => normalWeight
                     end;
     elTextAlign := alignCenter;
     elFontFamily := match type with
                     | narrationType => "Bangers"
                     | thoughtType => "Comic Neue"
                     | shoutType => "Luckiest Guy"
                     | dialogueType => "Inter"
                     end;
     elFontSize := match type with
                   | narrationType => 2 # 1
                   | shoutType => 5 # 2
                   | _ => 3 # 2
                   end;
     elColor := "#000000";
     elFillColor := match type with
                    | narrationType => "#facc15"
                    | _ => "#FFFFFF"
                    end;
     elTail := match type with
               | narrationType => None
               | _ => Some (50 # 1, 60 # 1)
               end |}.

(** [{ ...page, page: n }]. *)
Definition withPage (n : nat) (p : StoryPage) : StoryPage :=
  {| page := n; description := description p; narration := narration p;
     dialogue := dialogue p; image := image p; isGenerating := isGenerating p;
     isLettering := isLettering p; layout := layout p; sfx := sfx p;
     lettering := lettering p; generationFailed := generationFailed p;
     failureReason := failureReason p |}.

(** [newPages.map((page, index) => ({ ...page, page: index + 1 }))]. *)
Definition renumber (pages : list StoryPage) : list StoryPage :=
  imap (λ index p, withPage (index + 1) p) pages.

Section Edits.
Context {W : Type}.
Implicit Types (s : Machine (W:=W)).

(** [handleUpdateLetteringElement]: the first element with the id, if any,
    takes the update. *)
Definition handleUpdateLetteringElement (pageIndex : nat) (elementId : string)
    (updates : LetteringUpdates) s : Machine (W:=W) :=
  let newPages := storyPages s in
  match newPages !! pageIndex with
  | Some p =>
      match lettering p with
      | Some pageLettering =>
          match list_find (λ el, elId el = elementId) pageLettering with
          | Some (elementIndex, el) =>
              let newLettering :=
                <[elementIndex := applyUpdates el updates]> pageLettering in
              updateCurrentProject
                (<[pageIndex := withLettering (Some newLettering) p]> newPages) s
          | None => s
          end
      | None => s
      end
  | None => s
  end.

(** [handleAddLetteringElement]; [id] is the fresh [uuidv4()]. *)
Definition handleAddLetteringElement (id : string) (pageIndex : nat)
    (type : LetteringType) s : Machine (W:=W) :=
  let newElement := newLetteringElement id type in
  let newPages := storyPages s in
  match newPages !! pageIndex with
  | Some p =>
      let newLettering := default [] (lettering p) ++ [newElement] in
      updateCurrentProject
        (<[pageIndex := withLettering (Some newLettering) p]> newPages) s
  | None => s
  end.

Definition handleDeleteLetteringElement (pageIndex : nat) (elementId : string)
    s : Machine (W:=W) :=
  let newPages := storyPages s in
  match newPages !! pageIndex with
  | Some p =>
      match lettering p with
      | Some pageLettering =>
          let newLettering :=
            filter (λ el, elId el ≠ elementId) pageLettering in
          updateCurrentProject
            (<[pageIndex := withLettering (Some newLettering) p]> newPages) s
      | None => s
      end
  | None => s
  end.

(** [handleReorderPages]: the dragged panel is cut out, put back in front of
    position [dropIndex] of what is left (at the end when that is past it),
    and the panels are numbered again from 1.  A drag starts on a panel;
    with no panel at [dragIndex] the source would put an empty record into
    the list, which [StoryPage] cannot hold: the model has no result
    there. *)
Definition handleReorderPages (dragIndex dropIndex : nat) s
  : option (Machine (W:=W)) :=
  let newPages := storyPages s in
  match newPages !! dragIndex with
  | Some draggedItem =>
      let newPages := delete dragIndex newPages in
      let newPages :=
        take dropIndex newPages ++ draggedItem :: drop dropIndex newPages in
      Some (updateCurrentProject (renumber newPages) s)
  | None => None
  end.

End Edits.

(* ================================================================== *)
(** ** Vocabulary of the properties *)
(* ================================================================== *)

(** Every credential refuses the operation with a rate-limit-classified
    error, whatever the state of the backend. *)
Definition alwaysRateLimited {W T} (apiLogic : ApiLogic (W:=W) T) : Prop :=
  ∀ key w, ∃ error w',
    apiLogic key w = (Throw error, w') ∧ isRateLimitError error = true.

(** The image stage when Cancel is never noticed: [n] passes through the loop
    body from panel [i] on. *)
Fixpoint iterations {W} (apiKeys : list string)
    (generateContent : option string → Request → W → Result Response * W)
    (clicks : nat → bool) (n i : nat) (pages : list StoryPage)
    (s : Machine (W:=W)) : list StoryPage * Machine (W:=W) :=
  match n with
  | 0 => (pages, s)
  | S n' =>
      let '(pages', s') :=
        imageIteration apiKeys generateContent (clicks i) i pages s in
      iterations apiKeys generateContent clicks n' (S i) pages' s'
  end.

(** The lettering calls of the parallel stage that a trace records. *)
Definition isDispatch (e : Event) : bool :=
  match e with LetteringDispatched _ _ => true | _ => false end.

Definition dispatches (t : list Event) : list Event :=
  filter (λ e, isDispatch e = true) t.

(** The fields of a panel that come from the script. *)
Definition sameScript (p p' : StoryPage) : Prop :=
  page p' = page p ∧ description p' = description p ∧
  narration p' = narration p ∧ dialogue p' = dialogue p ∧
  layout p' = layout p ∧ sfx p' = sfx p.

(** What the parallel stage makes of panel [i]. *)
Definition letteredPanel (settled : Settled) (i : nat) (p : StoryPage)
  : StoryPage :=
  match letteringPromise settled i p with
  | Some r => withIsLettering (Some false) (withLettering (resLettering r) p)
  | None => p
  end.

(** What the merge makes of a panel, given the entry of [letteringResults]
    at its position, if any. *)
Definition mergedPanel (result : option (option LetteringResult)) (p : StoryPage)
  : StoryPage :=
  match result with
  | Some (Some r) =>
      withIsLettering (Some false) (withLettering (resLettering r) p)
  | _ => p
  end.

(* ================================================================== *)
(** ** Sample pools, backends and pages *)
(* ================================================================== *)

Module Sample.

Definition pool : list string := ["key-A"; "key-B"; "key-C"].

(** A machine over a backend whose world counts the requests it received. *)
Definition machine (pages : list StoryPage) : Machine (W:=nat) :=
  {| currentKeyIndex := 0; world := 0; generationCancelledRef := false;
     storyPages := pages; trace := [] |}.

(** An operation that every key refuses with [error]. *)
Definition refusing {T} (error : JsError) : ApiLogic (W:=nat) T :=
  λ _ w, (Throw error, S w).

Definition quotaError : JsError :=
  ErrorObj "Error" "429 RESOURCE_EXHAUSTED: Quota exceeded".

Definition invalidKeyError : JsError :=
  ErrorObj "Error" "API key not valid".

(** Three backends: one that paints, one whose answers carry no image, one
    out of quota on every key. *)
Definition painting : option string → Request → nat → Result Response * nat :=
  λ _ _ w, (Ok (Some [None; Some "iVBORw0KGgo="]), S w).

Definition blocked : option string → Request → nat → Result Response * nat :=
  λ _ _ w, (Ok None, S w).

Definition outOfQuota : option string → Request → nat → Result Response * nat :=
  λ _ _ w, (Throw quotaError, S w).

Definition painted : string := "data:image/png;base64,iVBORw0KGgo=".

Definition balloon (text : string) : LetteringElement :=
  {| elId := "balloon"; elType := dialogueType; elText := text;
     elX := 10 # 1; elY := 10 # 1; elWidth := 80 # 1; elHeight := 12 # 1;
     elFontWeight := normalWeight; elTextAlign := alignLeft;
     elFontFamily := "Inter"; elFontSize := 3 # 2;
     elColor := "#000000"; elFillColor := "#FFFFFF";
     elTail := Some (50 # 1, 50 # 1) |}.

(** A lettering operation that always places one balloon. *)
Definition letterer :
  string → list DialogueLine → string → option string → nat →
  Result (list LetteringElement) * nat :=
  λ _ _ narration _ w, (Ok [balloon narration], S w).

(** Settled lettering calls: the call for panel 1 fails, the others place
    one balloon. *)
Definition settled : Settled :=
  λ i _ _ narration,
    if decide (i = 1)
    then Throw (GeminiApiError "Failed to parse lettering data."
                  "The API returned an invalid format for lettering analysis. Please try regenerating the panel.")
    else Ok [balloon narration].

(** A panel as the script service returns it. *)
Definition scripted (n : nat) (text : string) : StoryPage :=
  {| page := n; description := text; narration := text;
     dialogue := [{| character := "Ada"; line := text |}];
     image := None; isGenerating := None; isLettering := None;
     layout := standard; sfx := None; lettering := None;
     generationFailed := None; failureReason := None |}.

Definition script : list StoryPage :=
  [scripted 1 "one"; scripted 2 "two"; scripted 3 "three"].

(** A finished panel, with image and lettering. *)
Definition finished : StoryPage :=
  withIsLettering (Some false)
    (withLettering (Some [balloon "one"])
       (withIsGenerating (Some false)
          (withImage (Some painted) (scripted 1 "one")))).

(** A panel whose generation failed earlier. *)
Definition failed : StoryPage :=
  withFailureReason (Some "An unknown error occurred.")
    (withGenerationFailed (Some true)
       (withIsLettering (Some false)
          (withIsGenerating (Some false) (scripted 2 "two")))).

(** Cancel pressed while the first panel is generated. *)
Definition cancelDuringFirst : nat → bool := λ k, bool_decide (k = 0).

Definition never : nat → bool := λ _, false.

(** A script service that returns [script] at once. *)
Definition scriptService : M (W:=nat) (list StoryPage) := λ s, (Ok script, s).

End Sample.

(* ================================================================== *)
(** ** Further vocabulary and samples *)
(* ================================================================== *)

(** [n] calls of [geminiApiCall] one after the other, each awaited before
    the next starts; the outcomes in order and the machine they leave. *)
Fixpoint callTimes {W T} (apiKeys : list string) (apiLogic : ApiLogic (W:=W) T)
    (n : nat) (s : Machine (W:=W)) : list (Result T) * Machine (W:=W) :=
  match n with
  | 0 => ([], s)
  | S n' =>
      let '(r, s') := geminiApiCall apiKeys apiLogic s in
      let '(rs, s'') := callTimes apiKeys apiLogic n' s' in
      (r :: rs, s'')
  end.

(** The attempts a trace records, as cursor positions with their keys. *)
Definition attemptsAt (apiKeys : list string) (indices : list nat) : list Event :=
  (λ i, Attempt i (apiKeys !! i)) <$> indices.



(** A string without comma. *)
Definition commaFree (s : string) : Prop :=
  Forall (λ c, c ≠ ","%char) (list_ascii_of_string s).

(** The move of [handleReorderPages] on any list: the element at [i] cut
    out and put back in front of position [j] of the rest. *)
Definition moveItem {A} (i j : nat) (l : list A) : option (list A) :=
  x ← l !! i;
  Some (take j (delete i l) ++ x :: drop j (delete i l)).

(** A panel without its number. *)
Definition unnumbered (p : StoryPage) : StoryPage := withPage 0 p.

(** An update that carries no field. *)
Definition noUpdates : LetteringUpdates :=
  {| updId := None; updType := None; updText := None; updX := None;
     updY := None; updWidth := None; updHeight := None;
     updFontWeight := None; updTextAlign := None; updFontFamily := None;
     updFontSize := None; updColor := None; updFillColor := None;
     updTail := None |}.

Module More.

(** An operation that succeeds on every key. *)
Definition serving {T} (v : T) : ApiLogic (W:=nat) T := λ _ w, (Ok v, S w).


(** A script backend whose answer comes wrapped in white space, and the
    reading of that answer: two panels, the second first. *)
Definition scriptBackend :
  option string → string → nat → Result (option string) * nat :=
  λ _ _ w, (Ok (Some "  [panels]  "), S w).

Definition parseScript (responseText : string) : option (list StoryPage) :=
  if decide (responseText = "[panels]")
  then Some [Sample.scripted 2 "two"; Sample.scripted 1 "one"]
  else None.

(** A script backend and a lettering operation out of quota on every key. *)
Definition quotaScript :
  option string → string → nat → Result (option string) * nat :=
  λ _ _ w, (Throw Sample.quotaError, S w).

Definition quotaLetterer :
  string → list DialogueLine → string → option string → nat →
  Result (list LetteringElement) * nat :=
  λ _ _ _ _ w, (Throw Sample.quotaError, S w).

(** Cancel pressed while the third panel is generated. *)
Definition cancelDuringLast : nat → bool := λ k, bool_decide (k = 2).

(** A page with two balloons that share an id and one with an id of its own. *)
Definition crowded : StoryPage :=
  withLettering
    (Some [Sample.balloon "first"; Sample.balloon "second";
           newLetteringElement "narrator" narrationType])
    Sample.finished.

(** Moving a balloon to the right. *)
Definition nudge : LetteringUpdates :=
  {| updId := None; updType := None; updText := None; updX := Some (40 # 1);
     updY := None; updWidth := None; updHeight := None;
     updFontWeight := None; updTextAlign := None; updFontFamily := None;
     updFontSize := None; updColor := None; updFillColor := None;
     updTail := None |}.

(** The probe of the key test: the second key is out of quota, the third is
    rejected, the first works. *)
Definition probe : nat → string → Result unit :=
  λ index _,
    match index with
    | 0 => Ok tt
    | 1 => Throw Sample.quotaError
    | _ => Throw Sample.invalidKeyError
    end.

End More.

(* ================================================================== *)
(** ** Properties of the key pool *)
(* ================================================================== *)

Section KeyPool.
Variable apiKeys : list string.

Lemma add_mod_small (c k : nat) :
  c < length apiKeys → k < length apiKeys →
  (c + k) mod length apiKeys =
    if decide (c + k < length apiKeys) then c + k else c + k - length apiKeys.
Proof.
  intros Hc Hk. case_decide as Hlt.
  - by apply Nat.mod_small.
  - symmetry. apply (Nat.mod_unique _ _ 1); lia.
Qed.

Lemma cursor_in_range (c : nat) :
  apiKeys ≠ [] → (c + 1) mod length apiKeys < length apiKeys.
Proof.
  intros Hne. apply Nat.mod_upper_bound. by destruct apiKeys.
Qed.

(** [n] calls from cursor [c] return the cursors [c], [c+1], ... counted
    modulo the pool size. *)
Lemma nextIndices_spec (n c : nat) :
  c < length apiKeys →
  KeyManager.nextIndices apiKeys n c =
    ((λ k, (c + k) mod length apiKeys) <$> seq 0 n, (c + n) mod length apiKeys).
Proof.
  revert c. induction n as [|n IH]; intros c Hc.
  - simpl. by rewrite Nat.add_0_r, Nat.mod_small.
  - cbn [KeyManager.nextIndices KeyManager.getNextKey].
    rewrite IH by (apply Nat.mod_upper_bound; lia).
    cbn [seq fmap list_fmap]. f_equal.
    + f_equal; [by rewrite Nat.add_0_r, Nat.mod_small|].
      rewrite <- (fmap_S_seq 0 n), <- list_fmap_compose.
      apply list_fmap_ext. intros _ k _. simpl.
      rewrite Nat.Div0.add_mod_idemp_l. f_equal. lia.
    + rewrite Nat.Div0.add_mod_idemp_l. f_equal. lia.
Qed.

(** A full round visits every index once. *)
Lemma round_permutation (c : nat) :
  c < length apiKeys →
  (λ k, (c + k) mod length apiKeys) <$> seq 0 (length apiKeys)
    ≡ₚ seq 0 (length apiKeys).
Proof.
  intros Hc. apply NoDup_Permutation.
  - apply NoDup_fmap_2_strong; [|apply NoDup_seq].
    intros k k' Hk Hk' Heq.
    apply elem_of_seq in Hk, Hk'.
    rewrite !add_mod_small in Heq by lia.
    repeat case_decide; lia.
  - apply NoDup_seq.
  - intros x. rewrite list_elem_of_fmap, elem_of_seq. split.
    + intros (k & Hx & Hk). subst x. apply elem_of_seq in Hk.
      split; [lia|]. simpl. apply Nat.mod_upper_bound. lia.
    + intros [_ Hx]. simpl in Hx.
      exists (if decide (c ≤ x) then x - c else x + length apiKeys - c).
      rewrite elem_of_seq. case_decide.
      * split; [|lia]. rewrite add_mod_small by lia. case_decide; lia.
      * split; [|lia]. rewrite add_mod_small by lia. case_decide; lia.
Qed.

(** C5. For a pool of N >= 1 keys: every call of [getNextKey] with the cursor
    in range returns the key under the cursor with that cursor and moves the
    cursor to the next position modulo N, which is in range again; N calls in
    a row from a freshly loaded module return 0, 1, ..., N-1 and call N+1
    returns 0; from any cursor in range, N calls in a row return every index
    of the pool exactly once and bring the cursor back where it was. *)
Theorem C5_round_robin :
  1 ≤ length apiKeys →
  (∀ c, c < length apiKeys →
     ∃ key, apiKeys !! c = Some key ∧
       KeyManager.getNextKey apiKeys c
         = ((Some key, c), (c + 1) mod length apiKeys) ∧
       (c + 1) mod length apiKeys < length apiKeys) ∧
  KeyManager.nextIndices apiKeys (length apiKeys) KeyManager.initialKeyIndex
    = (seq 0 (length apiKeys), 0) ∧
  (KeyManager.nextIndices apiKeys (S (length apiKeys))
     KeyManager.initialKeyIndex).1 !! length apiKeys = Some 0 ∧
  (∀ c, c < length apiKeys →
     (KeyManager.nextIndices apiKeys (length apiKeys) c).1
       ≡ₚ seq 0 (length apiKeys) ∧
     NoDup (KeyManager.nextIndices apiKeys (length apiKeys) c).1 ∧
     (KeyManager.nextIndices apiKeys (length apiKeys) c).2 = c).
Proof.
  intros HN. split; [|split; [|split]].
  - intros c Hc. destruct (lookup_lt_is_Some_2 apiKeys c Hc) as [key Hkey].
    exists key. split; [done|]. split.
    + unfold KeyManager.getNextKey. by rewrite Hkey.
    + apply Nat.mod_upper_bound. lia.
  - unfold KeyManager.initialKeyIndex. rewrite nextIndices_spec by lia.
    f_equal.
    + rewrite <- (list_fmap_id (seq 0 (length apiKeys))) at 2.
      apply list_fmap_ext. intros i k Hk. apply lookup_seq in Hk as [-> Hk].
      simpl. by apply Nat.mod_small.
    + simpl. by rewrite Nat.Div0.mod_same.
  - unfold KeyManager.initialKeyIndex. rewrite nextIndices_spec by lia.
    cbn [fst]. rewrite list_lookup_fmap, lookup_seq_lt by lia.
    simpl. by rewrite Nat.Div0.mod_same.
  - intros c Hc. rewrite nextIndices_spec by done. cbn [fst snd].
    split; [by apply round_permutation|]. split.
    + rewrite round_permutation by done. apply NoDup_seq.
    + rewrite <- Nat.Div0.add_mod_idemp_r, Nat.Div0.mod_same, Nat.add_0_r.
      by apply Nat.mod_small.
Qed.

End KeyPool.

Lemma C5_round_robin_witness :
  1 ≤ length Sample.pool ∧
  KeyManager.nextIndices Sample.pool 3 0 = ([0; 1; 2], 0).
Proof.
  split.
  - simpl. lia.
  - apply (C5_round_robin Sample.pool). simpl. lia.
Defined.

(* ================================================================== *)
(** ** Properties of [geminiApiCall] *)
(* ================================================================== *)

Section Executor.
Context {W T : Type}.
Variable apiKeys : list string.

Implicit Types (apiLogic : ApiLogic (W:=W) T) (s : Machine (W:=W)).

(** The cursor stays inside the pool across a call. *)
Lemma geminiApiLoop_cursor apiLogic (remaining : nat) :
  ∀ lastError s r s',
    currentKeyIndex s < length apiKeys →
    geminiApiLoop apiKeys apiLogic remaining lastError s = (r, s') →
    currentKeyIndex s' < length apiKeys.
Proof.
  induction remaining as [|n IH]; intros lastError s r s' Hc Hrun.
  - cbn in Hrun. destruct (isRateLimitError lastError); by simplify_eq.
  - cbn [geminiApiLoop KeyManager.getNextKey] in Hrun.
    assert (Hnext : (currentKeyIndex s + 1) mod length apiKeys < length apiKeys)
      by (apply Nat.mod_upper_bound; lia).
    destruct (apiLogic _ _) as [[result|error] w].
    + by simplify_eq.
    + destruct (isRateLimitError error); [by eapply IH, Hrun|by simplify_eq].
Qed.

(** The loop when every attempt is refused for quota: it uses up its
    [remaining] attempts on consecutive cursors and throws the exhaustion
    error. *)
Lemma geminiApiLoop_exhausted apiLogic (remaining : nat) :
  alwaysRateLimited apiLogic →
  ∀ lastError s,
    currentKeyIndex s < length apiKeys →
    (remaining = 0 → isRateLimitError lastError = true) →
    ∃ s',
      geminiApiLoop apiKeys apiLogic remaining lastError s
        = (Throw allKeysRateLimited, s') ∧
      trace s' = trace s ++
        ((λ k, let i := (currentKeyIndex s + k) mod length apiKeys in
               Attempt i (apiKeys !! i)) <$> seq 0 remaining) ∧
      currentKeyIndex s' = (currentKeyIndex s + remaining) mod length apiKeys ∧
      storyPages s' = storyPages s ∧
      generationCancelledRef s' = generationCancelledRef s.
Proof.
  intros Hop. induction remaining as [|n IH]; intros lastError s Hc Hlast.
  - exists s. cbn [geminiApiLoop]. rewrite Hlast by done.
    rewrite Nat.add_0_r, Nat.mod_small by done.
    by rewrite app_nil_r.
  - cbn [geminiApiLoop KeyManager.getNextKey].
    set (s1 := emit _ (setKeyIndex _ s)).
    destruct (Hop (apiKeys !! currentKeyIndex s) (world s1))
      as (error & w' & Hrun & Hrate).
    rewrite Hrun, Hrate.
    destruct (IH error (setWorld w' s1)) as (s' & Hloop & Htrace & Hcur & Hpages & Hflag).
    { cbn. apply Nat.mod_upper_bound. lia. }
    { done. }
    exists s'. split; [done|]. cbn in Htrace, Hcur, Hpages, Hflag.
    split; [|split; [|done]].
    + rewrite Htrace. cbn [seq fmap list_fmap].
      rewrite <- app_assoc. f_equal. cbn [app]. f_equal.
      * by rewrite Nat.add_0_r, Nat.mod_small.
      * rewrite <- (fmap_S_seq 0 n), <- list_fmap_compose.
        apply list_fmap_ext. intros _ k _. cbn.
        rewrite Nat.Div0.add_mod_idemp_l.
        by replace (currentKeyIndex s + 1 + k) with (currentKeyIndex s + S k) by lia.
    + rewrite Hcur, Nat.Div0.add_mod_idemp_l. f_equal. lia.
Qed.

(** C1 (amended). For a pool of N >= 1 keys and an operation that every
    credential refuses with a rate-limit-classified error, one call of
    [geminiApiCall] invokes the operation exactly N times, on the N pool
    positions that N consecutive calls of [getNextKey] return: every position
    of the pool once, hence N distinct credentials when the pool lists no
    key twice.  It then throws the fixed all-keys-exhausted [GeminiApiError],
    which callers recognise by its message and which is the same whatever
    error was recorded last. *)
Theorem C1_exhausts_every_key apiLogic s :
  1 ≤ length apiKeys →
  currentKeyIndex s < length apiKeys →
  alwaysRateLimited apiLogic →
  let indices :=
    (KeyManager.nextIndices apiKeys (length apiKeys) (currentKeyIndex s)).1 in
  ∃ s',
    geminiApiCall apiKeys apiLogic s = (Throw allKeysRateLimited, s') ∧
    trace s' = trace s ++ ((λ i, Attempt i (apiKeys !! i)) <$> indices) ∧
    length indices = length apiKeys ∧
    indices ≡ₚ seq 0 (length apiKeys) ∧
    NoDup indices ∧
    (NoDup apiKeys → NoDup ((λ i, apiKeys !! i) <$> indices)) ∧
    currentKeyIndex s' = currentKeyIndex s ∧
    instanceofGeminiApiError allKeysRateLimited
      && Js.includes "rate limits" (messageOf allKeysRateLimited) = true.
Proof.
  intros HN Hc Hop indices.
  destruct (geminiApiLoop_exhausted apiLogic (length apiKeys) Hop
              noKeysAvailable s Hc) as (s' & Hrun & Htrace & Hcur & _).
  { lia. }
  assert (Hidx : indices
            = (λ k, (currentKeyIndex s + k) mod length apiKeys)
                <$> seq 0 (length apiKeys)).
  { unfold indices. by rewrite nextIndices_spec. }
  assert (Hperm : indices ≡ₚ seq 0 (length apiKeys)).
  { rewrite Hidx. by apply round_permutation. }
  assert (Hnodup : NoDup indices).
  { rewrite Hperm. apply NoDup_seq. }
  exists s'. split; [done|]. split.
  { rewrite Htrace, Hidx, <- list_fmap_compose. done. }
  split. { by rewrite Hperm, length_seq. }
  split; [done|]. split; [done|]. split.
  { intros Hkeys. apply NoDup_fmap_2_strong; [|done].
    intros i j Hi Hj Heq.
    rewrite Hperm in Hi, Hj. apply elem_of_seq in Hi, Hj.
    destruct (lookup_lt_is_Some_2 apiKeys i) as [key Hkey]; [lia|].
    rewrite Hkey in Heq. symmetry in Heq.
    by eapply NoDup_lookup. }
  split; [|done].
  rewrite Hcur, <- Nat.Div0.add_mod_idemp_r, Nat.Div0.mod_same, Nat.add_0_r.
  by apply Nat.mod_small.
Qed.

(** C2. When the operation run with the first credential handed out fails
    with an error that is not rate-limit-classified, [geminiApiCall] throws
    that very error after this single invocation: one attempt is recorded,
    the cursor has moved by one position and no further key is taken. *)
Theorem C2_fail_fast apiLogic s (error : JsError) (w' : W) :
  1 ≤ length apiKeys →
  apiLogic (apiKeys !! currentKeyIndex s) (world s) = (Throw error, w') →
  isRateLimitError error = false →
  ∃ s',
    geminiApiCall apiKeys apiLogic s = (Throw error, s') ∧
    trace s' = trace s
      ++ [Attempt (currentKeyIndex s) (apiKeys !! currentKeyIndex s)] ∧
    currentKeyIndex s' = (currentKeyIndex s + 1) mod length apiKeys ∧
    world s' = w'.
Proof.
  intros HN Hrun Hrate.
  unfold geminiApiCall, KeyManager.getTotalKeys.
  destruct (length apiKeys) as [|n] eqn:Hlen; [lia|].
  cbn [geminiApiLoop KeyManager.getNextKey]. cbn [world emit setKeyIndex].
  rewrite Hrun, Hrate. eexists. split; [done|]. cbn. by rewrite Hlen.
Qed.

End Executor.

Lemma C1_exhausts_every_key_witness :
  ∃ s',
    geminiApiCall Sample.pool (Sample.refusing (T:=string) Sample.quotaError)
      (Sample.machine []) = (Throw allKeysRateLimited, s') ∧
    trace s' = [Attempt 0 (Some "key-A"); Attempt 1 (Some "key-B");
                Attempt 2 (Some "key-C")].
Proof.
  destruct (C1_exhausts_every_key Sample.pool
              (Sample.refusing (T:=string) Sample.quotaError)
              (Sample.machine []))
    as (s' & Hrun & Htrace & _).
  - simpl. lia.
  - simpl. lia.
  - intros key w. exists Sample.quotaError, (S w). split; reflexivity.
  - exists s'. split; [exact Hrun | exact Htrace].
Defined.

(** C1 as stated fails twice.  The error thrown after the last key is the
    same for any error recorded last, so nothing in it gives that error back;
    and a pool loaded from an environment key that is also listed in the file
    holds that key twice, so one call presents the same credential twice. *)
Lemma C1_counterexample :
  (¬ ∃ cause : JsError → JsError,
       ∀ lastError, isRateLimitError lastError = true →
         ∃ thrown s',
           geminiApiCall Sample.pool (Sample.refusing (T:=string) lastError)
             (Sample.machine []) = (Throw thrown, s') ∧
           cause thrown = lastError) ∧
  (KeyManager.loadApiKeys (Some "key-A") ["key-A"; "key-B"]
     = Ok ["key-A"; "key-A"; "key-B"] ∧
   trace (geminiApiCall ["key-A"; "key-A"; "key-B"]
            (Sample.refusing (T:=string) Sample.quotaError)
            (Sample.machine [])).2
     = [Attempt 0 (Some "key-A"); Attempt 1 (Some "key-A");
        Attempt 2 (Some "key-B")]).
Proof.
  split; [|split; reflexivity].
  intros [cause Hcause].
  destruct (Hcause (ErrorObj "Error" "quota exceeded for key")) as (t1 & s1 & H1 & C1);
    [reflexivity|].
  destruct (Hcause (ErrorObj "Error" "rate limit reached")) as (t2 & s2 & H2 & C2);
    [reflexivity|].
  vm_compute in H1, H2.
  injection H1 as <- _. injection H2 as <- _.
  rewrite C1 in C2. discriminate C2.
Qed.

Lemma C2_fail_fast_witness :
  ∃ s',
    geminiApiCall Sample.pool (Sample.refusing (T:=string) Sample.invalidKeyError)
      (Sample.machine []) = (Throw Sample.invalidKeyError, s') ∧
    trace s' = [Attempt 0 (Some "key-A")].
Proof.
  destruct (C2_fail_fast Sample.pool
              (Sample.refusing (T:=string) Sample.invalidKeyError)
              (Sample.machine []) Sample.invalidKeyError 1)
    as (s' & Hrun & Htrace & _).
  - simpl. lia.
  - reflexivity.
  - reflexivity.
  - exists s'. split; [exact Hrun | exact Htrace].
Defined.

(* ================================================================== *)
(** ** Properties of the panel services and of the image stage *)
(* ================================================================== *)

Section Lists.

Lemma lookup_mapAt (i j : nat) (f : StoryPage → StoryPage) (pages : list StoryPage) :
  mapAt i f pages !! j
    = (λ p, if decide (j = i) then f p else p) <$> pages !! j.
Proof. unfold mapAt. by rewrite list_lookup_imap. Qed.

Lemma lookup_mapAt_eq (i : nat) f (pages : list StoryPage) :
  mapAt i f pages !! i = f <$> pages !! i.
Proof.
  rewrite lookup_mapAt. destruct (pages !! i); [|done]. cbn.
  by rewrite decide_True.
Qed.

Lemma lookup_mapAt_ne (i j : nat) f (pages : list StoryPage) :
  j ≠ i → mapAt i f pages !! j = pages !! j.
Proof.
  intros Hne. rewrite lookup_mapAt. destruct (pages !! j); [|done]. cbn.
  by rewrite decide_False.
Qed.

Lemma length_mapAt (i : nat) f (pages : list StoryPage) :
  length (mapAt i f pages) = length pages.
Proof. apply length_imap. Qed.

Lemma lookup_mapFrom (i j : nat) f (pages : list StoryPage) :
  mapFrom i f pages !! j
    = (λ p, if decide (i ≤ j) then f p else p) <$> pages !! j.
Proof. unfold mapFrom. by rewrite list_lookup_imap. Qed.

Lemma length_mapFrom (i : nat) f (pages : list StoryPage) :
  length (mapFrom i f pages) = length pages.
Proof. apply length_imap. Qed.

End Lists.

Section Services.
Context {W : Type}.
Variable apiKeys : list string.
Variable generateContent : option string → Request → W → Result Response * W.
Variable letteringLogic :
  string → list DialogueLine → string → option string → W →
  Result (list LetteringElement) * W.

Implicit Types (s : Machine (W:=W)).

(** A call of [geminiApiCall] touches the key cursor, the backend and the
    trace, and nothing of the component state. *)
Lemma geminiApiLoop_frame {T} (apiLogic : ApiLogic T) (remaining : nat) :
  ∀ lastError s r s',
    geminiApiLoop apiKeys apiLogic remaining lastError s = (r, s') →
    storyPages s' = storyPages s ∧
    generationCancelledRef s' = generationCancelledRef s.
Proof.
  induction remaining as [|n IH]; intros lastError s r s' Hrun.
  - cbn in Hrun. destruct (isRateLimitError lastError); by simplify_eq.
  - cbn [geminiApiLoop KeyManager.getNextKey] in Hrun.
    destruct (apiLogic _ _) as [[result|error] w].
    + by simplify_eq.
    + destruct (isRateLimitError error).
      * apply IH in Hrun. by cbn in Hrun.
      * by simplify_eq.
Qed.

(** What [geminiApiCall] returns was returned by the operation. *)
Lemma geminiApiLoop_ok {T} (apiLogic : ApiLogic T) (remaining : nat) :
  ∀ lastError s result s',
    geminiApiLoop apiKeys apiLogic remaining lastError s = (Ok result, s') →
    ∃ key w w', apiLogic key w = (Ok result, w').
Proof.
  induction remaining as [|n IH]; intros lastError s result s' Hrun.
  - cbn in Hrun. destruct (isRateLimitError lastError); by simplify_eq.
  - cbn [geminiApiLoop KeyManager.getNextKey] in Hrun.
    destruct (apiLogic _ _) as [[result'|error] w] eqn:Hop.
    + simplify_eq. eauto.
    + destruct (isRateLimitError error); [by eapply IH | by simplify_eq].
Qed.

Lemma imageCatch_frame placeholderText unexpected error s r s' :
  imageCatch placeholderText unexpected error s = (r, s') → s' = s.
Proof.
  unfold imageCatch. intros Hrun.
  repeat case_match; by simplify_eq.
Qed.

Lemma generatePanelImage_frame request s r s' :
  generatePanelImage apiKeys generateContent request s = (r, s') →
  storyPages s' = storyPages s ∧
  generationCancelledRef s' = generationCancelledRef s.
Proof.
  unfold generatePanelImage, geminiApiCall. intros Hrun.
  destruct (geminiApiLoop _ _ _ _ _) as [[result|error] s1] eqn:Hloop;
    apply geminiApiLoop_frame in Hloop.
  - by simplify_eq.
  - apply imageCatch_frame in Hrun. by subst.
Qed.

(** [generatePanelImage] only ever throws a [GeminiApiError]. *)
Lemma generatePanelImage_throws request s error s' :
  generatePanelImage apiKeys generateContent request s = (Throw error, s') →
  ∃ message userFriendlyMessage,
    error = GeminiApiError message userFriendlyMessage.
Proof.
  unfold generatePanelImage, imageCatch. intros Hrun.
  destruct (geminiApiCall _ _ _) as [[result|caught] s1]; [done|].
  destruct caught; cbn in Hrun; repeat case_match; simplify_eq; eauto.
Qed.

(** An image that one of the image services returns is a non-empty data
    URL. *)
Lemma imageLogic_ok request blocked key w result w' :
  imageLogic generateContent request blocked key w = (Ok result, w') →
  ∃ data, result = "data:image/png;base64," +:+ data.
Proof.
  unfold imageLogic. intros Hrun. repeat case_match; simplify_eq; eauto.
Qed.

Lemma generatePanelImage_truthy request s result s' :
  generatePanelImage apiKeys generateContent request s = (Ok result, s') →
  Js.truthy result = true.
Proof.
  unfold generatePanelImage, geminiApiCall, imageCatch. intros Hrun.
  destruct (geminiApiLoop _ _ _ _ _) as [[ok|caught] s1] eqn:Hloop.
  - simplify_eq. apply geminiApiLoop_ok in Hloop as (key & w & w' & Hop).
    by apply imageLogic_ok in Hop as [data ->].
  - repeat case_match; by simplify_eq.
Qed.

(** With every credential out of quota, [generatePanelImage] returns the
    placeholder image instead of throwing. *)
Lemma generatePanelImage_exhausted request s :
  1 ≤ length apiKeys →
  currentKeyIndex s < length apiKeys →
  (∀ key request w, ∃ error w',
     generateContent key request w = (Throw error, w') ∧
     isRateLimitError error = true) →
  ∃ s',
    generatePanelImage apiKeys generateContent request s
      = (Ok (createPlaceholderSvgDataUrl "API Limit Reached"), s') ∧
    storyPages s' = storyPages s ∧
    generationCancelledRef s' = generationCancelledRef s.
Proof.
  intros HN Hc Hquota. unfold generatePanelImage, geminiApiCall.
  edestruct (geminiApiLoop_exhausted apiKeys
               (imageLogic generateContent (PanelImageRequest request) panelBlocked)
               (KeyManager.getTotalKeys apiKeys))
    as (s' & Hrun & _ & _ & Hpages & Hflag).
  - intros key w. destruct (Hquota key (PanelImageRequest request) w)
      as (error & w' & Hgen & Hrate).
    exists error, w'. unfold imageLogic. by rewrite Hgen.
  - exact Hc.
  - unfold KeyManager.getTotalKeys. lia.
  - rewrite Hrun. exists s'. by split.
Qed.

End Services.

Section ImageStage.
Context {W : Type}.
Variable apiKeys : list string.
Variable generateContent : option string → Request → W → Result Response * W.

Implicit Types (s : Machine (W:=W)) (pages : list StoryPage).

Local Abbreviation generatePanelImage' := (generatePanelImage apiKeys generateContent).
Local Abbreviation imageIteration' := (imageIteration apiKeys generateContent).
Local Abbreviation imageLoop' := (imageLoop apiKeys generateContent).
Local Abbreviation iterations' := (iterations apiKeys generateContent).

Lemma awaiting_frame {A} (click : bool) (m : M A) s r s' :
  (∀ r1 s1, m s = (r1, s1) →
     storyPages s1 = storyPages s ∧
     generationCancelledRef s1 = generationCancelledRef s) →
  awaiting click m s = (r, s') →
  storyPages s' = storyPages s ∧
  generationCancelledRef s' = generationCancelledRef s || click.
Proof.
  unfold awaiting. intros Hm Hrun. destruct (m s) as [r1 s1] eqn:Hms.
  destruct (Hm _ _ eq_refl) as [Hp Hf]. simplify_eq.
  destruct click; cbn; rewrite ?Hf, ?orb_true_r, ?orb_false_r; done.
Qed.

(** A pass through the loop body keeps the number of panels, raises the
    cancellation flag only on a press of Cancel, and changes no panel but
    its own. *)
Lemma imageIteration_flag click i pages s :
  i < length pages →
  generationCancelledRef (imageIteration' click i pages s).2
    = generationCancelledRef s || click.
Proof.
  intros Hi. unfold imageIteration, imageIterationCatch.
  destruct (lookup_lt_is_Some_2 pages i Hi) as [p ->].
  destruct (awaiting _ _ _) as [[panelImage|panelError] s'] eqn:Hrun;
    eapply awaiting_frame in Hrun as [_ Hf];
    eauto using generatePanelImage_frame.
Qed.

Lemma imageIteration_other click i j pages s :
  j ≠ i → (imageIteration' click i pages s).1 !! j = pages !! j.
Proof.
  intros Hne. unfold imageIteration, imageIterationCatch.
  repeat case_match; cbn; by rewrite lookup_mapAt_ne.
Qed.

Lemma imageIteration_length click i pages s :
  length (imageIteration' click i pages s).1 = length pages.
Proof.
  unfold imageIteration, imageIterationCatch.
  repeat case_match; cbn; by rewrite length_mapAt.
Qed.

Lemma imageIteration_published click i pages s :
  storyPages (imageIteration' click i pages s).2
    = (imageIteration' click i pages s).1.
Proof.
  unfold imageIteration, imageIterationCatch. repeat case_match; done.
Qed.

(** C6. When generating the image of panel [i] throws, the pass through the
    loop body rewrites panel [i] alone: not generating, not lettering,
    failed, without image, with the user-facing message of the error as the
    reason; every other panel is as before and the new list is published.
    With Cancel not pressed, the loop then goes on with panel [i + 1] on that
    list, the cancellation flag still down. *)
Theorem C6_failed_panel_is_isolated (clicks : nat → bool) (remaining i : nat)
    pages (p : StoryPage) s (error : JsError) s' :
  pages !! i = Some p →
  generationCancelledRef s = false →
  clicks i = false →
  generatePanelImage' (panelRequestAt i pages p) s = (Throw error, s') →
  ∃ message reason pages',
    error = GeminiApiError message reason ∧
    pages' = mapAt i (panelFailed reason) pages ∧
    imageIteration' (clicks i) i pages s
      = (pages', updateCurrentProject pages' s') ∧
    pages' !! i = Some (panelFailed reason p) ∧
    isGenerating (panelFailed reason p) = Some false ∧
    isLettering (panelFailed reason p) = Some false ∧
    generationFailed (panelFailed reason p) = Some true ∧
    failureReason (panelFailed reason p) = Some reason ∧
    image (panelFailed reason p) = None ∧
    sameScript p (panelFailed reason p) ∧
    lettering (panelFailed reason p) = lettering p ∧
    (∀ j, j ≠ i → pages' !! j = pages !! j) ∧
    length pages' = length pages ∧
    imageLoop' clicks (S remaining) i pages s
      = imageLoop' clicks remaining (S i) pages'
          (updateCurrentProject pages' s') ∧
    generationCancelledRef (updateCurrentProject pages' s') = false ∧
    (∀ remaining', remaining = S remaining' →
       imageLoop' clicks (S remaining) i pages s
         = imageLoop' clicks remaining' (S (S i))
             (imageIteration' (clicks (S i)) (S i) pages'
                (updateCurrentProject pages' s')).1
             (imageIteration' (clicks (S i)) (S i) pages'
                (updateCurrentProject pages' s')).2).
Proof.
  intros Hp Hflag Hclick Hgen.
  destruct (generatePanelImage_throws _ _ _ _ _ _ Hgen) as (message & reason & ->).
  exists message, reason, (mapAt i (panelFailed reason) pages).
  assert (Hiter : imageIteration' (clicks i) i pages s
            = (mapAt i (panelFailed reason) pages,
               updateCurrentProject (mapAt i (panelFailed reason) pages) s')).
  { unfold imageIteration, awaiting. by rewrite Hp, Hgen, Hclick. }
  split; [done|]. split; [done|]. split; [done|].
  split. { by rewrite lookup_mapAt_eq, Hp. }
  do 5 (split; [done|]). split; [by repeat split|]. split; [done|].
  split. { intros j Hj. by apply lookup_mapAt_ne. }
  split. { apply length_mapAt. }
  assert (Hstill : generationCancelledRef
            (updateCurrentProject (mapAt i (panelFailed reason) pages) s') = false).
  { apply generatePanelImage_frame in Hgen as [_ Hf]. cbn. congruence. }
  split; [cbn [imageLoop]; by rewrite Hflag, Hiter|].
  split; [done|].
  intros remaining' ->. cbn [imageLoop]. rewrite Hflag, Hiter, Hstill.
  destruct (imageIteration _ _ (clicks (S i)) _ _ _) as [pages'' s'']. reflexivity.
Qed.

(** C10. With every credential out of quota, the image call for panel [i]
    does not throw: it returns the placeholder image, and the pass through
    the loop body records panel [i] as generated (the placeholder as its
    image, not generating, waiting for lettering, [generationFailed] as it
    was).  A panel that had not failed before is then one of those the
    parallel stage sends to lettering, with the placeholder as the image. *)
Theorem C10_placeholder_is_a_success (click : bool) (i : nat) pages
    (p : StoryPage) s :
  1 ≤ length apiKeys →
  currentKeyIndex s < length apiKeys →
  (∀ key request w, ∃ error w',
     generateContent key request w = (Throw error, w') ∧
     isRateLimitError error = true) →
  pages !! i = Some p →
  let placeholder := createPlaceholderSvgDataUrl "API Limit Reached" in
  let p' := imageReady placeholder p in
  (∃ s', generatePanelImage' (panelRequestAt i pages p) s = (Ok placeholder, s')) ∧
  (imageIteration' click i pages s).1 = mapAt i (imageReady placeholder) pages ∧
  (imageIteration' click i pages s).1 !! i = Some p' ∧
  image p' = Some placeholder ∧
  isGenerating p' = Some false ∧
  isLettering p' = Some true ∧
  generationFailed p' = generationFailed p ∧
  failureReason p' = failureReason p ∧
  (generationFailed p ≠ Some true →
     letteringEligible p' = true ∧
     [LetteringDispatched i placeholder] = letteringDispatches_at i p' ∧
     ∀ settled : Settled,
       lettering (letteredPanel settled i p')
         = match settled i placeholder (dialogue p) (narration p) with
           | Ok letteringData => Some letteringData
           | Throw _ => None
           end).
Proof.
  intros HN Hc Hquota Hp placeholder p'.
  destruct (generatePanelImage_exhausted apiKeys generateContent
              (panelRequestAt i pages p) s HN Hc Hquota) as (s' & Hgen & _).
  assert (Hiter : (imageIteration' click i pages s).1
                  = mapAt i (imageReady placeholder) pages).
  { unfold imageIteration, awaiting. by rewrite Hp, Hgen. }
  split; [by exists s'|]. split; [done|].
  split. { by rewrite Hiter, lookup_mapAt_eq, Hp. }
  do 5 (split; [done|]).
  intros Hnot.
  assert (Heligible : letteringEligible p' = true).
  { unfold letteringEligible. cbn. by rewrite bool_decide_eq_false_2. }
  split; [done|]. split.
  { unfold letteringDispatches_at. by rewrite Heligible. }
  intros settled. unfold letteredPanel, letteringPromise. rewrite Heligible.
  cbn. by destruct (settled _ _ _ _).
Qed.


(** *** The loop as a whole *)

Lemma geminiApiLoop_dispatches {T} (apiLogic : ApiLogic T) (remaining : nat) :
  ∀ lastError s r s',
    geminiApiLoop apiKeys apiLogic remaining lastError s = (r, s') →
    dispatches (trace s') = dispatches (trace s).
Proof.
  induction remaining as [|n IH]; intros lastError s r s' Hrun.
  - cbn in Hrun. destruct (isRateLimitError lastError); by simplify_eq.
  - cbn [geminiApiLoop KeyManager.getNextKey] in Hrun.
    assert (Hemit : ∀ w, dispatches (trace (setWorld w
                (emit (Attempt (currentKeyIndex s) (apiKeys !! currentKeyIndex s))
                   (setKeyIndex ((currentKeyIndex s + 1) mod length apiKeys) s))))
              = dispatches (trace s)).
    { intros w. cbn. unfold dispatches. rewrite filter_app. cbn.
      by rewrite app_nil_r. }
    destruct (apiLogic _ _) as [[result|error] w].
    + simplify_eq. apply Hemit.
    + destruct (isRateLimitError error).
      * apply IH in Hrun. by rewrite Hrun, Hemit.
      * simplify_eq. apply Hemit.
Qed.

Lemma updateCurrentProject_dispatches pages s :
  dispatches (trace (updateCurrentProject pages s)) = dispatches (trace s).
Proof.
  cbn. unfold dispatches. rewrite filter_app. cbn. by rewrite app_nil_r.
Qed.

Lemma imageIteration_dispatches click i pages s :
  dispatches (trace (imageIteration' click i pages s).2) = dispatches (trace s).
Proof.
  unfold imageIteration, imageIterationCatch, awaiting, generatePanelImage,
    geminiApiCall.
  destruct (pages !! i) as [p|]; [|apply updateCurrentProject_dispatches].
  destruct (geminiApiLoop _ _ _ _ _) as [[result|error] s1] eqn:Hloop;
    apply geminiApiLoop_dispatches in Hloop.
  - destruct click; cbn [snd]; by rewrite updateCurrentProject_dispatches.
  - destruct (imageCatch _ _ _ _) as [[result|error'] s2] eqn:Hcatch;
      apply imageCatch_frame in Hcatch; subst s2;
      destruct click; cbn [snd]; by rewrite updateCurrentProject_dispatches.
Qed.

Lemma iterations_app clicks (a b i : nat) pages s :
  iterations' clicks (a + b) i pages s
    = iterations' clicks b (i + a) (iterations' clicks a i pages s).1
        (iterations' clicks a i pages s).2.
Proof.
  revert i pages s. induction a as [|a IH]; intros i pages s.
  - cbn. by rewrite Nat.add_0_r.
  - cbn [iterations Nat.add].
    destruct (imageIteration' _ _ _ _) as [pages' s'].
    rewrite IH. by replace (S i + a) with (i + S a) by lia.
Qed.

Lemma iterations_length clicks (n i : nat) pages s :
  length (iterations' clicks n i pages s).1 = length pages.
Proof.
  revert i pages s. induction n as [|n IH]; intros i pages s; [done|].
  cbn [iterations].
  destruct (imageIteration' _ _ _ _) as [pages' s'] eqn:Hiter.
  rewrite IH. by rewrite <- (imageIteration_length (clicks i) i pages s), Hiter.
Qed.

(** Passes for the panels from [i] on leave the panels before [i] alone. *)
Lemma iterations_earlier clicks (n i j : nat) pages s :
  j < i → (iterations' clicks n i pages s).1 !! j = pages !! j.
Proof.
  revert i pages s. induction n as [|n IH]; intros i pages s Hj; [done|].
  cbn [iterations].
  destruct (imageIteration' _ _ _ _) as [pages' s'] eqn:Hiter.
  rewrite IH by lia.
  rewrite <- (imageIteration_other (clicks i) i j pages s) by lia.
  by rewrite Hiter.
Qed.

Lemma iterations_dispatches clicks (n i : nat) pages s :
  dispatches (trace (iterations' clicks n i pages s).2) = dispatches (trace s).
Proof.
  revert i pages s. induction n as [|n IH]; intros i pages s; [done|].
  cbn [iterations].
  destruct (imageIteration' _ _ _ _) as [pages' s'] eqn:Hiter.
  rewrite IH. by rewrite <- (imageIteration_dispatches (clicks i) i pages s), Hiter.
Qed.

(** The cancellation flag after [n] passes: raised when Cancel was pressed
    during one of them. *)
Lemma iterations_flag clicks (n i : nat) pages s :
  i + n ≤ length pages →
  generationCancelledRef (iterations' clicks n i pages s).2
    = generationCancelledRef s || existsb clicks (seq i n).
Proof.
  revert i pages s. induction n as [|n IH]; intros i pages s Hlen.
  - cbn. by rewrite orb_false_r.
  - cbn [iterations seq existsb].
    destruct (imageIteration' _ _ _ _) as [pages' s'] eqn:Hiter.
    rewrite IH.
    + rewrite orb_assoc. f_equal.
      change s' with (pages', s').2. rewrite <- Hiter.
      apply imageIteration_flag. lia.
    + change pages' with (pages', s').1. rewrite <- Hiter.
      rewrite imageIteration_length. lia.
Qed.

(** As long as the flag is down at the head of the loop, the loop is the
    plain sequence of passes. *)
Lemma imageLoop_iterations clicks (n remaining i : nat) pages s :
  i + n ≤ length pages →
  generationCancelledRef s = false →
  existsb clicks (seq i (pred n)) = false →
  imageLoop' clicks (n + remaining) i pages s
    = imageLoop' clicks remaining (i + n)
        (iterations' clicks n i pages s).1 (iterations' clicks n i pages s).2.
Proof.
  revert i pages s. induction n as [|n IH]; intros i pages s Hlen Hflag Hclicks.
  - cbn. by rewrite Nat.add_0_r.
  - cbn [imageLoop iterations Nat.add]. rewrite Hflag.
    destruct (imageIteration' _ _ _ _) as [pages' s'] eqn:Hiter.
    destruct n as [|n].
    + cbn. by rewrite Nat.add_1_r.
    + cbn [pred seq existsb] in Hclicks.
      apply orb_false_iff in Hclicks as [Hclick Hrest].
      rewrite IH.
      * by replace (S i + S n) with (i + S (S n)) by lia.
      * change pages' with (pages', s').1. rewrite <- Hiter.
        rewrite imageIteration_length. lia.
      * change s' with (pages', s').2. rewrite <- Hiter.
        rewrite imageIteration_flag by lia. by rewrite Hflag, Hclick.
      * done.
Qed.


Local Abbreviation handleGenerateStory' :=
  (handleGenerateStory apiKeys generateContent).

(** Cancel pressed while panel [i - 1] is generated, and not before. *)
Lemma cancel_seen_at clicks (i : nat) :
  1 ≤ i →
  (∀ k, k + 1 < i → clicks k = false) →
  clicks (i - 1) = true →
  existsb clicks (seq 0 (pred i)) = false ∧ existsb clicks (seq 0 i) = true.
Proof.
  intros Hi Hnone Hclick. split.
  - apply not_true_is_false. intros Hex.
    apply existsb_exists in Hex as (k & Hk & Hck).
    apply in_seq in Hk. rewrite Hnone in Hck by lia. done.
  - apply existsb_exists. exists (i - 1). split; [|done].
    apply in_seq. lia.
Qed.

(** C3. The script stage has succeeded with the flag down, Cancel is pressed
    while panel [i - 1] is being generated and not before, and panel [i]
    exists.  Then the loop makes its passes for the panels before [i] only;
    every panel from [i] on ends failed, with the cancellation reason and not
    generating; every panel before [i] is as its own pass left it, with the
    image that pass obtained; the run ends with the publication of that list
    and the reset of the flag: no lettering call is started, and the result
    does not depend on the lettering calls. *)
Theorem C3_cancel_between_panels (generateStory : M (list StoryPage))
    (clicks : nat → bool) (settled : Settled) (order : list nat)
    s (generated : list StoryPage) s1 (i : nat) :
  generateStory (setCancelled false s) = (Ok generated, s1) →
  generationCancelledRef s1 = false →
  1 ≤ i < length generated →
  (∀ k, k + 1 < i → clicks k = false) →
  clicks (i - 1) = true →
  let pages0 := initialPage <$> generated in
  let s2 := updateCurrentProject pages0 s1 in
  let before := iterations' clicks i 0 pages0 s2 in
  let final := handleGenerateStory' generateStory false clicks settled order s in
  final = setCancelled false
            (updateCurrentProject (mapFrom i cancelledPage before.1) before.2) ∧
  length (storyPages final) = length generated ∧
  (∀ j, i ≤ j < length generated →
     ∃ p, storyPages final !! j = Some p ∧
       generationFailed p = Some true ∧
       failureReason p = Some "Generation was cancelled." ∧
       isGenerating p = Some false) ∧
  (∀ j, j < i →
     storyPages final !! j = (iterations' clicks (S j) 0 pages0 s2).1 !! j) ∧
  (∀ j p panelImage s', j < i →
     (iterations' clicks j 0 pages0 s2).1 !! j = Some p →
     generatePanelImage' (panelRequestAt j (iterations' clicks j 0 pages0 s2).1 p)
       (iterations' clicks j 0 pages0 s2).2 = (Ok panelImage, s') →
     storyPages final !! j = Some (imageReady panelImage p) ∧
     image (imageReady panelImage p) = Some panelImage) ∧
  dispatches (trace final) = dispatches (trace s1) ∧
  (∀ settled' order',
     handleGenerateStory' generateStory false clicks settled' order' s = final).
Proof.
  intros Hscript Hflag [Hi1 HiN] Hnone Hclick pages0 s2 before final.
  destruct (cancel_seen_at clicks i Hi1 Hnone Hclick) as [Hquiet Hseen].
  assert (Hlen0 : length pages0 = length generated).
  { unfold pages0. by rewrite length_fmap. }
  assert (Hloop : imageLoop' clicks (length generated) 0 pages0 s2
            = (mapFrom i cancelledPage before.1,
               updateCurrentProject (mapFrom i cancelledPage before.1) before.2)).
  { replace (length generated) with (i + S (length generated - i - 1)) by lia.
    rewrite imageLoop_iterations by (done || lia).
    fold before. cbn [imageLoop].
    unfold before at 1. rewrite iterations_flag by lia.
    cbn [generationCancelledRef updateCurrentProject emit s2].
    by rewrite Hflag, Hseen. }
  assert (Hfinal : ∀ settled' order',
            handleGenerateStory' generateStory false clicks settled' order' s
            = setCancelled false
                (updateCurrentProject (mapFrom i cancelledPage before.1) before.2)).
  { intros settled' order'. unfold handleGenerateStory, awaiting.
    rewrite Hscript. fold pages0. fold s2. rewrite Hloop.
    cbn [generationCancelledRef updateCurrentProject emit].
    unfold before. rewrite iterations_flag by lia.
    cbn [generationCancelledRef updateCurrentProject emit s2].
    by rewrite Hflag, Hseen. }
  assert (Hpages : storyPages final = mapFrom i cancelledPage before.1).
  { unfold final. by rewrite Hfinal. }
  assert (Hbefore : length before.1 = length generated).
  { unfold before. by rewrite iterations_length. }
  assert (Hstable : ∀ j, j < i →
            before.1 !! j = (iterations' clicks (S j) 0 pages0 s2).1 !! j).
  { intros j Hj. unfold before.
    replace i with (S j + (i - S j)) by lia.
    rewrite iterations_app. by rewrite iterations_earlier by lia. }
  split; [apply Hfinal|]. split.
  { by rewrite Hpages, length_mapFrom. }
  split.
  { intros j [Hj1 Hj2]. rewrite Hpages, lookup_mapFrom.
    destruct (lookup_lt_is_Some_2 before.1 j) as [p Hp]; [lia|].
    rewrite Hp. cbn. rewrite decide_True by done. eauto. }
  split.
  { intros j Hj. rewrite Hpages, lookup_mapFrom, <- Hstable by done.
    destruct (before.1 !! j) as [p|]; [|done]. cbn.
    by rewrite decide_False by lia. }
  split.
  { intros j p panelImage s' Hj Hp Hgen. split; [|done].
    rewrite Hpages, lookup_mapFrom, Hstable by done.
    replace (S j) with (j + 1) by lia. rewrite iterations_app.
    cbn [iterations Nat.add]. unfold imageIteration, awaiting.
    rewrite Hp, Hgen. destruct (clicks (0 + j)); cbn [fst];
      rewrite lookup_mapAt_eq, Hp; cbn; by rewrite decide_False by lia. }
  split; [|intros settled' order'; unfold final; by rewrite !Hfinal].
  unfold final. rewrite Hfinal. cbn [setCancelled trace].
  rewrite updateCurrentProject_dispatches. unfold before.
  rewrite iterations_dispatches. unfold s2.
  by rewrite updateCurrentProject_dispatches.
Qed.

End ImageStage.

(* ================================================================== *)
(** ** Properties of the parallel lettering stage *)
(* ================================================================== *)

Section PromiseAll.
Context {A : Type}.
Implicit Types (values : list A) (slots : list (option A)) (order : list nat).

Lemma length_fulfil values slots (k : nat) :
  length (fulfil values slots k) = length slots.
Proof. unfold fulfil. destruct (values !! k); [apply length_insert|done]. Qed.

Lemma lookup_fulfil values slots (a k : nat) :
  length slots = length values →
  fulfil values slots a !! k
    = if decide (a = k) then
        match values !! k with Some v => Some (Some v) | None => slots !! k end
      else slots !! k.
Proof.
  intros Hlen. unfold fulfil. case_decide as Hak.
  - subst a. destruct (values !! k) as [v|] eqn:Hv; [|done].
    apply list_lookup_insert_eq. rewrite Hlen. by eapply lookup_lt_Some.
  - destruct (values !! a); [by apply list_lookup_insert_ne|done].
Qed.

(** After the fulfilments listed in [order], exactly the slots of the
    promises listed there are filled, each with the value of its own
    promise. *)
Lemma lookup_fulfilled values order : ∀ slots (k : nat),
  length slots = length values →
  foldl (fulfil values) slots order !! k
    = match values !! k with
      | Some v => if decide (k ∈ order) then Some (Some v) else slots !! k
      | None => slots !! k
      end.
Proof.
  induction order as [|a order IH]; intros slots k Hlen.
  - cbn. destruct (values !! k); [|done]. by rewrite decide_False by set_solver.
  - cbn [foldl]. rewrite IH by (by rewrite length_fulfil).
    rewrite lookup_fulfil by done.
    destruct (values !! k) as [v|] eqn:Hv.
    + destruct (decide (k ∈ order)) as [Hin|Hnotin].
      * by rewrite decide_True by set_solver.
      * destruct (decide (a = k)) as [->|Hne].
        -- by rewrite decide_True by set_solver.
        -- rewrite decide_False; [done|].
           intros [?|?]%elem_of_cons; done.
    + by destruct (decide (a = k)).
Qed.

(** [Promise.all] gives the values in the order of the promises, whatever
    the order in which they are fulfilled. *)
Lemma promiseAll_permutation values order :
  order ≡ₚ seq 0 (length values) → promiseAll values order = Some values.
Proof.
  intros Hperm. unfold promiseAll.
  replace (foldl _ _ _) with (Some <$> values).
  { by apply mapM_fmap_Some. }
  apply list_eq. intros k.
  rewrite lookup_fulfilled by apply length_replicate.
  rewrite list_lookup_fmap.
  destruct (values !! k) as [v|] eqn:Hv; cbn.
  - rewrite decide_True; [done|].
    rewrite Hperm. apply elem_of_seq. apply lookup_lt_Some in Hv. lia.
  - apply lookup_ge_None in Hv. symmetry.
    apply lookup_replicate_None. lia.
Qed.

End PromiseAll.

Section Merge.
Implicit Types (pages : list StoryPage) (results : list (option LetteringResult)).

(** The merge is keyed by the index each result carries: when every result
    carries its own position, panel [i] receives result [i] and nothing
    else. *)
Lemma lookup_merged results : ∀ pages (i : nat),
  (∀ k r, results !! k = Some (Some r) → resIndex r = k) →
  foldl mergeLettering pages results !! i
    = mergedPanel (results !! i) <$> pages !! i.
Proof.
  induction results as [|x results IH] using rev_ind; intros pages i Hidx.
  - cbn. by destruct (pages !! i).
  - rewrite foldl_snoc.
    assert (Hprefix : ∀ k r, results !! k = Some (Some r) → resIndex r = k).
    { intros k r Hk. apply Hidx. by apply lookup_app_l_Some. }
    destruct x as [r|]; cbn [mergeLettering].
    + assert (Hr : resIndex r = length results).
      { apply Hidx. by rewrite lookup_app_r, Nat.sub_diag. }
      rewrite Hr.
      destruct (foldl mergeLettering pages results !! length results)
        as [p|] eqn:Hp.
      * destruct (decide (i = length results)) as [->|Hne].
        -- rewrite list_lookup_insert_eq by (by eapply lookup_lt_Some).
           rewrite IH in Hp by done.
           rewrite (lookup_ge_None_2 results) in Hp by done.
           rewrite lookup_app_r, Nat.sub_diag by done.
           destruct (pages !! length results); cbn in *; by simplify_eq.
        -- rewrite list_lookup_insert_ne by done. rewrite IH by done.
           destruct (decide (i < length results)).
           ++ by rewrite lookup_app_l.
           ++ rewrite (lookup_ge_None_2 results) by lia.
              rewrite (lookup_ge_None_2 (results ++ _))
                by (rewrite length_app; cbn; lia). done.
      * rewrite IH by done.
        destruct (decide (i = length results)) as [->|Hne].
        -- rewrite IH in Hp by done.
           destruct (pages !! length results); [done|]. done.
        -- destruct (decide (i < length results)).
           ++ by rewrite lookup_app_l.
           ++ rewrite (lookup_ge_None_2 results) by lia.
              rewrite (lookup_ge_None_2 (results ++ _))
                by (rewrite length_app; cbn; lia). done.
    + rewrite IH by done.
      destruct (decide (i < length results)).
      * by rewrite lookup_app_l.
      * rewrite (lookup_ge_None_2 results) by lia.
        destruct (decide (i = length results)) as [->|Hne].
        -- by rewrite lookup_app_r, Nat.sub_diag.
        -- rewrite (lookup_ge_None_2 (results ++ _))
             by (rewrite length_app; cbn; lia). done.
Qed.

Lemma length_merged results : ∀ pages,
  length (foldl mergeLettering pages results) = length pages.
Proof.
  induction results as [|x results IH]; intros pages; [done|].
  cbn [foldl]. rewrite IH. unfold mergeLettering.
  repeat case_match; by rewrite ?length_insert.
Qed.

Lemma letteringPromise_index settled pages (k : nat) r :
  imap (letteringPromise settled) pages !! k = Some (Some r) → resIndex r = k.
Proof.
  rewrite list_lookup_imap. destruct (pages !! k) as [p|]; [|done]. cbn.
  unfold letteringPromise. intros Hr.
  repeat case_match; by simplify_eq.
Qed.

(** The stage, once every promise is fulfilled: the panel list with each
    panel replaced by what the stage makes of it. *)
Lemma letteringStage_spec settled order pages :
  order ≡ₚ seq 0 (length pages) →
  letteringStage settled order pages = Some (imap (letteredPanel settled) pages).
Proof.
  intros Hperm. unfold letteringStage.
  rewrite promiseAll_permutation by (by rewrite length_imap).
  cbn. f_equal. apply list_eq. intros i.
  rewrite lookup_merged by apply letteringPromise_index.
  rewrite !list_lookup_imap. by destruct (pages !! i).
Qed.

End Merge.

Section ParallelStage.
Context {W : Type}.
Variable apiKeys : list string.
Variable generateContent : option string → Request → W → Result Response * W.

Implicit Types (s : Machine (W:=W)) (pages : list StoryPage).

Local Abbreviation imageLoop' := (imageLoop apiKeys generateContent).

Lemma mapAt_Forall (P : StoryPage → Prop) (i : nat) f pages :
  (∀ p, P p → P (f p)) → Forall P pages → Forall P (mapAt i f pages).
Proof.
  intros Hf HP. apply Forall_lookup. intros j p'.
  rewrite lookup_mapAt. destruct (pages !! j) as [p|] eqn:Hp; [|done].
  cbn. intros [= <-]. eapply Forall_lookup_1 in HP; [|done].
  case_decide; auto.
Qed.

Lemma mapFrom_Forall (P : StoryPage → Prop) (i : nat) f pages :
  (∀ p, P p → P (f p)) → Forall P pages → Forall P (mapFrom i f pages).
Proof.
  intros Hf HP. apply Forall_lookup. intros j p'.
  rewrite lookup_mapFrom. destruct (pages !! j) as [p|] eqn:Hp; [|done].
  cbn. intros [= <-]. eapply Forall_lookup_1 in HP; [|done].
  case_decide; auto.
Qed.

(** The image stage never writes the lettering of a panel. *)
Lemma imageLoop_lettering_null clicks (remaining : nat) :
  ∀ (i : nat) pages s,
    Forall (λ p, lettering p = None) pages →
    Forall (λ p, lettering p = None)
      (imageLoop' clicks remaining i pages s).1.
Proof.
  induction remaining as [|n IH]; intros i pages s Hnull; [done|].
  cbn [imageLoop]. destruct (generationCancelledRef s).
  - cbn. by apply mapFrom_Forall.
  - destruct (imageIteration _ _ _ _ _ _) as [pages' s'] eqn:Hiter.
    apply IH. unfold imageIteration, imageIterationCatch in Hiter.
    repeat case_match; simplify_eq; by apply mapAt_Forall.
Qed.

(** C4. Take the panels as the image stage leaves them and any order in
    which the lettering promises are fulfilled.  The stage then completes,
    with the same result for every such order, and panel by panel: a panel
    with an image that did not fail gets the outcome of the call started for
    its own index (the elements on success, null when that call failed) and
    is no longer lettering; any other panel is untouched, its lettering
    null.  Changing the outcome of the call for one panel changes no other
    panel. *)
Theorem C4_lettering_merge_by_index (clicks : nat → bool)
    (generated : list StoryPage) s (settled : Settled) (order : list nat) :
  let pages :=
    (imageLoop' clicks (length generated) 0 (initialPage <$> generated) s).1 in
  order ≡ₚ seq 0 (length pages) →
  ∃ final,
    letteringStage settled order pages = Some final ∧
    length final = length pages ∧
    (∀ order', order' ≡ₚ seq 0 (length pages) →
       letteringStage settled order' pages = Some final) ∧
    (∀ i p, pages !! i = Some p →
       ∃ p', final !! i = Some p' ∧ sameScript p p' ∧ image p' = image p ∧
         if letteringEligible p then
           ∃ base64ImageData,
             image p = Some base64ImageData ∧
             isLettering p' = Some false ∧
             lettering p' =
               match settled i base64ImageData (dialogue p) (narration p) with
               | Ok letteringData => Some letteringData
               | Throw _ => None
               end
         else p' = p ∧ lettering p' = None) ∧
    (∀ settled' : Settled, ∀ i,
       (∀ j base64ImageData dialogue narration, j ≠ i →
          settled' j base64ImageData dialogue narration
            = settled j base64ImageData dialogue narration) →
       ∃ final',
         letteringStage settled' order pages = Some final' ∧
         ∀ j, j ≠ i → final' !! j = final !! j).
Proof.
  intros pages Hperm.
  assert (Hnull : Forall (λ p, lettering p = None) pages).
  { apply imageLoop_lettering_null, Forall_fmap, Forall_true. done. }
  exists (imap (letteredPanel settled) pages).
  split; [by apply letteringStage_spec|]. split; [apply length_imap|].
  split; [intros order' Hperm'; by apply letteringStage_spec|]. split.
  - intros i p Hp. exists (letteredPanel settled i p).
    split. { by rewrite list_lookup_imap, Hp. }
    eapply Forall_lookup_1 in Hnull; [|done]. cbn in Hnull.
    unfold letteredPanel, letteringPromise.
    destruct (letteringEligible p) eqn:Heligible.
    + unfold letteringEligible in Heligible.
      destruct (image p) as [base64ImageData|] eqn:Himage; [|done].
      split; [by repeat split|]. split; [done|].
      exists base64ImageData. split; [done|].
      by destruct (settled _ _ _ _).
    + by repeat split.
  - intros settled' i Hsame.
    exists (imap (letteredPanel settled') pages).
    split; [by apply letteringStage_spec|].
    intros j Hj. rewrite !list_lookup_imap.
    destruct (pages !! j) as [p|]; [|done]. cbn. f_equal.
    unfold letteredPanel, letteringPromise.
    destruct (letteringEligible p); [|done].
    destruct (image p); [|done]. by rewrite Hsame.
Qed.

End ParallelStage.

(* ================================================================== *)
(** ** Properties of the single-panel handlers *)
(* ================================================================== *)

Section Handlers.
Context {W : Type}.
Variable apiKeys : list string.
Variable generateContent : option string → Request → W → Result Response * W.
Variable letteringLogic :
  string → list DialogueLine → string → option string → W →
  Result (list LetteringElement) * W.

Implicit Types (s : Machine (W:=W)) (pages : list StoryPage).

Local Abbreviation generatePanelImage' := (generatePanelImage apiKeys generateContent).
Local Abbreviation editPanelImage' := (editPanelImage apiKeys generateContent).
Local Abbreviation analyzePanelForLettering' :=
  (analyzePanelForLettering apiKeys letteringLogic).
Local Abbreviation handleRegeneratePanel' :=
  (handleRegeneratePanel apiKeys generateContent letteringLogic).
Local Abbreviation handleEditPanel' :=
  (handleEditPanel apiKeys generateContent letteringLogic).

(** The services only append to the trace. *)
Lemma geminiApiLoop_trace {T} (apiLogic : ApiLogic T) (remaining : nat) :
  ∀ lastError s r s',
    geminiApiLoop apiKeys apiLogic remaining lastError s = (r, s') →
    trace s `prefix_of` trace s'.
Proof.
  induction remaining as [|n IH]; intros lastError s r s' Hrun.
  - cbn in Hrun. destruct (isRateLimitError lastError); by simplify_eq.
  - cbn [geminiApiLoop KeyManager.getNextKey] in Hrun.
    destruct (apiLogic _ _) as [[result|error] w].
    + simplify_eq. by apply prefix_app_r.
    + destruct (isRateLimitError error).
      * apply IH in Hrun. cbn in Hrun.
        etrans; [|done]. by apply prefix_app_r.
      * simplify_eq. by apply prefix_app_r.
Qed.

Lemma generatePanelImage_trace request s r s' :
  generatePanelImage' request s = (r, s') → trace s `prefix_of` trace s'.
Proof.
  unfold generatePanelImage, geminiApiCall. intros Hrun.
  destruct (geminiApiLoop _ _ _ _ _) as [[result|error] s1] eqn:Hloop;
    apply geminiApiLoop_trace in Hloop.
  - by simplify_eq.
  - apply imageCatch_frame in Hrun. by subst.
Qed.

Lemma analyzePanelForLettering_trace base64ImageData dialogue narration s r s' :
  analyzePanelForLettering' base64ImageData dialogue narration s = (r, s') →
  trace s `prefix_of` trace s'.
Proof.
  unfold analyzePanelForLettering, geminiApiCall. intros Hrun.
  destruct (_ && _); [by simplify_eq|].
  destruct (geminiApiLoop _ _ _ _ _) as [[result|error] s1] eqn:Hloop;
    apply geminiApiLoop_trace in Hloop.
  - by simplify_eq.
  - destruct (instanceofGeminiApiError error); by simplify_eq.
Qed.

(** C8. Regenerating an existing panel first publishes the panel list with
    that panel reset (generating, no image, no lettering, not failed, no
    failure reason) and only then calls the image service.  When that call
    and the lettering call after it both succeed, the panel ends with the
    image returned, a non-empty data URL, with the elements returned as its
    lettering, neither generating nor lettering, not failed and without
    reason, its script fields as before; every other panel is as before. *)
Theorem C8_regenerate_resets_then_fills (pageIndex : nat) s (p : StoryPage)
    (panelImage : string) s2 (letteringData : list LetteringElement) s4 :
  storyPages s !! pageIndex = Some p →
  let original := storyPages s in
  let reset := mapAt pageIndex regenerateReset original in
  let ready := mapAt pageIndex (imageReady panelImage) reset in
  generatePanelImage' (panelRequestAt pageIndex original p)
    (updateCurrentProject reset s) = (Ok panelImage, s2) →
  analyzePanelForLettering' panelImage (dialogue p) (narration p)
    (updateCurrentProject ready s2) = (Ok letteringData, s4) →
  let final := handleRegeneratePanel' pageIndex s in
  reset !! pageIndex = Some (regenerateReset p) ∧
  generationFailed (regenerateReset p) = Some false ∧
  failureReason (regenerateReset p) = None ∧
  image (regenerateReset p) = None ∧
  lettering (regenerateReset p) = None ∧
  (∃ later, trace final = trace s ++ Publish reset :: later) ∧
  trace s ++ [Publish reset] `prefix_of` trace s2 ∧
  (∃ p',
     storyPages final !! pageIndex = Some p' ∧
     image p' = Some panelImage ∧
     Js.truthy panelImage = true ∧
     lettering p' = Some letteringData ∧
     isGenerating p' = Some false ∧
     isLettering p' = Some false ∧
     generationFailed p' = Some false ∧
     failureReason p' = None ∧
     sameScript p p') ∧
  (∀ j, j ≠ pageIndex → storyPages final !! j = storyPages s !! j) ∧
  length (storyPages final) = length (storyPages s).
Proof.
  intros Hp original reset ready Hgen Hletter final.
  subst original reset ready final.
  set (reset := mapAt pageIndex regenerateReset (storyPages s)) in *.
  set (ready := mapAt pageIndex (imageReady panelImage) reset) in *.
  assert (Hfinal : handleRegeneratePanel' pageIndex s
            = updateCurrentProject
                (mapAt pageIndex (lettered letteringData) ready) s4).
  { unfold handleRegeneratePanel. rewrite Hp. fold reset. rewrite Hgen.
    fold ready. by rewrite Hletter. }
  pose proof (generatePanelImage_trace _ _ _ _ Hgen) as Ht2.
  pose proof (analyzePanelForLettering_trace _ _ _ _ _ _ Hletter) as Ht4.
  cbn [trace updateCurrentProject emit] in Ht2, Ht4.
  split. { unfold reset. by rewrite lookup_mapAt_eq, Hp. }
  do 4 (split; [done|]). split.
  { assert (Hpre : trace s ++ [Publish reset]
                     `prefix_of` trace (handleRegeneratePanel' pageIndex s)).
    { rewrite Hfinal. cbn [trace updateCurrentProject emit].
      etrans; [exact Ht2|]. apply prefix_app_r.
      etrans; [|exact Ht4]. by apply prefix_app_r. }
    destruct Hpre as [later Hlater]. exists later.
    by rewrite Hlater, <- app_assoc. }
  split; [done|]. split.
  { exists (lettered letteringData (imageReady panelImage (regenerateReset p))).
    split.
    { rewrite Hfinal. cbn [storyPages updateCurrentProject emit].
      unfold ready, reset. by rewrite !lookup_mapAt_eq, Hp. }
    split; [done|]. split.
    { by eapply generatePanelImage_truthy. }
    do 5 (split; [done|]). by repeat split. }
  split.
  { intros j Hj. rewrite Hfinal. cbn [storyPages updateCurrentProject emit].
    unfold ready, reset. by rewrite !lookup_mapAt_ne. }
  rewrite Hfinal. cbn [storyPages updateCurrentProject emit].
  unfold ready, reset. by rewrite !length_mapAt.
Qed.

(** C9. Whatever the edit does (it returns early, the image call or the
    lettering call fails, or both succeed), every panel of the project keeps
    its page number, description, narration, dialogue, layout and sound
    effect, and also its failure flag and reason; panels other than the
    edited one are not changed at all. *)
Theorem C9_edit_keeps_script (pageIndex : nat) (editPrompt : string) s :
  let final := handleEditPanel' pageIndex editPrompt s in
  length (storyPages final) = length (storyPages s) ∧
  ∀ j p, storyPages s !! j = Some p →
    ∃ p',
      storyPages final !! j = Some p' ∧
      sameScript p p' ∧
      generationFailed p' = generationFailed p ∧
      failureReason p' = failureReason p ∧
      (j ≠ pageIndex → p' = p).
Proof.
  cbn zeta. unfold handleEditPanel, editCatch.
  repeat case_match; cbn [storyPages updateCurrentProject emit];
    rewrite ?length_mapAt; (split; [done|]); intros j q Hq;
    rewrite ?lookup_mapAt, ?Hq; cbn;
    (eexists; split; [reflexivity|]);
    destruct (decide (j = pageIndex)); by repeat split.
Qed.

(** The failed edit in general: the panel keeps its image and loses its
    lettering. *)
Lemma failed_edit_state (pageIndex : nat) (editPrompt : string) s
    (p : StoryPage) (pageImage : string) (error : JsError) s2 :
  storyPages s !! pageIndex = Some p →
  image p = Some pageImage →
  Js.truthy pageImage = true →
  editPanelImage' pageImage editPrompt
    (updateCurrentProject (mapAt pageIndex editStarted (storyPages s)) s)
    = (Throw error, s2) →
  storyPages (handleEditPanel' pageIndex editPrompt s) !! pageIndex
    = Some (editStopped (editStarted p)) ∧
  image (editStopped (editStarted p)) = image p ∧
  lettering (editStopped (editStarted p)) = None.
Proof.
  intros Hp Himage Htruthy Hedit. unfold handleEditPanel, editCatch.
  rewrite Hp, Himage, Htruthy. cbn [negb]. rewrite Hedit.
  cbn [storyPages updateCurrentProject emit].
  by rewrite !lookup_mapAt_eq, Hp.
Qed.

End Handlers.

(* ================================================================== *)
(** ** The properties on sample runs *)
(* ================================================================== *)

Example isRateLimitError_quota : isRateLimitError Sample.quotaError = true.
Proof. reflexivity. Qed.

Example isRateLimitError_invalid_key :
  isRateLimitError Sample.invalidKeyError = false.
Proof. reflexivity. Qed.

Example exhaustion_is_rate_limit : isRateLimitError allKeysRateLimited = true.
Proof. reflexivity. Qed.

Example btoa_padding : Js.btoa "Many hands" = "TWFueSBoYW5kcw==".
Proof. reflexivity. Qed.

Example loadApiKeys_empty :
  KeyManager.loadApiKeys None []
    = Throw (ErrorObj "Error"
        "No API_KEY is configured. Please set the environment variable or add keys to apiKeyManager.ts").
Proof. reflexivity. Qed.

Lemma C3_cancel_between_panels_witness :
  let final :=
    handleGenerateStory Sample.pool Sample.painting Sample.scriptService false
      Sample.cancelDuringFirst Sample.settled [2; 1; 0] (Sample.machine []) in
  length (storyPages final) = 3 ∧
  dispatches (trace final) = [] ∧
  image <$> storyPages final = [Some Sample.painted; None; None].
Proof.
  destruct (C3_cancel_between_panels Sample.pool Sample.painting
              Sample.scriptService Sample.cancelDuringFirst Sample.settled
              [2; 1; 0] (Sample.machine []) Sample.script
              (setCancelled false (Sample.machine [])) 1)
    as (_ & Hlen & _ & _ & _ & Hdispatch & _).
  - reflexivity.
  - reflexivity.
  - simpl. lia.
  - intros k Hk. lia.
  - reflexivity.
  - split; [exact Hlen|]. split; [exact Hdispatch|]. reflexivity.
Defined.

Lemma C4_lettering_merge_by_index_witness :
  ∃ final,
    letteringStage Sample.settled [2; 1; 0]
      (imageLoop Sample.pool Sample.painting Sample.never 3 0
         (initialPage <$> Sample.script) (Sample.machine [])).1 = Some final ∧
    length final = 3.
Proof.
  destruct (C4_lettering_merge_by_index Sample.pool Sample.painting
              Sample.never Sample.script (Sample.machine []) Sample.settled
              [2; 1; 0])
    as (final & Hstage & Hlen & _).
  - vm_compute. apply (Permutation_rev [2; 1; 0]).
  - exists final. split; [exact Hstage | exact Hlen].
Defined.

Lemma C6_failed_panel_is_isolated_witness :
  ∃ pages',
    (imageIteration Sample.pool Sample.blocked false 0
       (initialPage <$> Sample.script) (Sample.machine [])).1 = pages' ∧
    generationFailed <$> pages' = [Some true; Some false; Some false] ∧
    imageLoop Sample.pool Sample.blocked Sample.never 3 0
      (initialPage <$> Sample.script) (Sample.machine [])
    = imageLoop Sample.pool Sample.blocked Sample.never 2 1 pages'
        (imageIteration Sample.pool Sample.blocked false 0
           (initialPage <$> Sample.script) (Sample.machine [])).2.
Proof.
  edestruct (C6_failed_panel_is_isolated Sample.pool Sample.blocked
               Sample.never 2 0 (initialPage <$> Sample.script)
               (initialPage (Sample.scripted 1 "one")) (Sample.machine [])
               panelBlocked)
    as (message & reason & pages' & Herror & Hpages & Hiter & _ & _ & _ & _ & _
        & _ & _ & _ & _ & _ & Hloop & _).
  - reflexivity.
  - reflexivity.
  - reflexivity.
  - vm_compute. reflexivity.
  - exists pages'. change (Sample.never 0) with false in Hiter.
    rewrite Hiter. split; [reflexivity|]. split.
    + injection Herror as <- <-. rewrite Hpages. reflexivity.
    + exact Hloop.
Defined.

Lemma C8_regenerate_resets_then_fills_witness :
  ∃ p',
    storyPages (handleRegeneratePanel Sample.pool Sample.painting Sample.letterer 1
                  (Sample.machine [Sample.finished; Sample.failed])) !! 1
      = Some p' ∧
    image p' = Some Sample.painted ∧
    lettering p' = Some [Sample.balloon "two"] ∧
    generationFailed p' = Some false ∧
    failureReason p' = None.
Proof.
  edestruct (λ s2 s4,
               C8_regenerate_resets_then_fills Sample.pool Sample.painting
                 Sample.letterer 1
                 (Sample.machine [Sample.finished; Sample.failed])
                 Sample.failed Sample.painted s2 [Sample.balloon "two"] s4)
    as (_ & _ & _ & _ & _ & _ & _ & (p' & Hp' & Himage & _ & Hlettering & _ & _
        & Hfailed & Hreason & _) & _).
  - reflexivity.
  - vm_compute. reflexivity.
  - vm_compute. reflexivity.
  - exists p'. repeat split; assumption.
Defined.

Lemma C10_placeholder_is_a_success_witness :
  (imageIteration Sample.pool Sample.outOfQuota false 0
     (initialPage <$> Sample.script) (Sample.machine [])).1 !! 0
  = Some (imageReady (createPlaceholderSvgDataUrl "API Limit Reached")
            (initialPage (Sample.scripted 1 "one"))).
Proof.
  refine (proj1 (proj2 (proj2
    (C10_placeholder_is_a_success Sample.pool Sample.outOfQuota false 0
       (initialPage <$> Sample.script) (initialPage (Sample.scripted 1 "one"))
       (Sample.machine []) _ _ _ _)))).
  - simpl. lia.
  - simpl. lia.
  - intros key request w. exists Sample.quotaError, (S w). split; reflexivity.
  - reflexivity.
Defined.

(** C7 (the code departs from it). A finished panel has an image and one
    balloon of lettering; the edit fails because the model returns no image.
    The failure is reported and the image is kept, but the panel is left
    without its lettering: the handler cleared it before the call and its
    catch clause goes on from the cleared list. *)
Theorem C7_failed_edit_loses_lettering :
  let s := Sample.machine [Sample.finished] in
  let final :=
    handleEditPanel Sample.pool Sample.blocked Sample.letterer 0
      "make it night" s in
  (editPanelImage Sample.pool Sample.blocked Sample.painted "make it night"
     (updateCurrentProject (mapAt 0 editStarted (storyPages s)) s)).1
    = Throw editBlocked ∧
  lettering <$> storyPages s !! 0 = Some (Some [Sample.balloon "one"]) ∧
  lettering <$> storyPages final !! 0 = Some None ∧
  image <$> storyPages final !! 0 = image <$> storyPages s !! 0 ∧
  trace final !! 2
    = Some (Alert "Panel Edit Failed: The image edit was blocked, possibly due to a content safety filter. Please try a different edit prompt.").
Proof. vm_compute. repeat split. Qed.

(** The sibling handler on the same failure: [handleRegeneratePanel] starts
    its catch clause from the pages it was called with, so image and
    lettering of the panel survive. *)
Example failed_regeneration_keeps_lettering :
  let s := Sample.machine [Sample.finished] in
  let final :=
    handleRegeneratePanel Sample.pool Sample.blocked Sample.letterer 0 s in
  lettering <$> storyPages final !! 0 = lettering <$> storyPages s !! 0 ∧
  image <$> storyPages final !! 0 = image <$> storyPages s !! 0.
Proof. vm_compute. repeat split. Qed.

(** With every key out of quota the edit service returns the placeholder,
    and the handler stores it over the image of the panel. *)
Example exhausted_edit_overwrites_image :
  let s := Sample.machine [Sample.finished] in
  let final :=
    handleEditPanel Sample.pool Sample.outOfQuota Sample.letterer 0
      "make it night" s in
  image <$> storyPages final !! 0
    = Some (Some (createPlaceholderSvgDataUrl "API Limit: Edit Failed")).
Proof. vm_compute. reflexivity. Qed.

(* ================================================================== *)
(** ** Further properties of the key pool and of [geminiApiCall] *)
(* ================================================================== *)

(** X1. What loading the pool gives: either a pool that is not empty, holds
    no empty key, starts with the environment key when there is one, and
    ends with the listed keys that are not empty, in their order; or, when
    no candidate key is left, the configuration error. *)
Theorem loadApiKeys_pool (envApiKey : option string) (userApiKeys : list string) :
  match KeyManager.loadApiKeys envApiKey userApiKeys with
  | Ok apiKeys =>
      apiKeys ≠ [] ∧
      Forall (λ key, Js.truthy key = true) apiKeys ∧
      (∀ key, envApiKey = Some key → Js.truthy key = true →
         apiKeys !! 0 = Some key) ∧
      filter (λ key, Js.truthy key = true) userApiKeys `suffix_of` apiKeys
  | Throw error =>
      Js.truthyOpt envApiKey = false ∧
      Forall (λ key, Js.truthy key = false) userApiKeys ∧
      instanceofGeminiApiError error = false
  end.
Proof.
  unfold KeyManager.loadApiKeys. rewrite filter_app.
  set (kept := filter _ userApiKeys).
  case_decide as Hlen.
  - apply nil_length_inv, app_eq_nil in Hlen as [Henv Huser].
    split; [|split; [|done]].
    + destruct envApiKey as [key|]; [|done]. cbn in *.
      destruct (Js.truthy key) eqn:Hkey; [|done]. cbn in Henv.
      by rewrite decide_True in Henv by done.
    + subst kept. apply Forall_forall. intros key Hin.
      apply not_true_is_false. intros Hkey.
      assert (key ∈ filter (λ key, Js.truthy key = true) userApiKeys) as Hk
        by (by apply list_elem_of_filter).
      rewrite Huser in Hk. by apply not_elem_of_nil in Hk.
  - split; [by intros Heq; rewrite Heq in Hlen|].
    split; [|split].
    + apply Forall_app. split; apply Forall_forall; intros key Hin;
        by apply list_elem_of_filter in Hin as [? _].
    + intros key -> Hkey. cbn. rewrite Hkey. cbn.
      by rewrite decide_True by done.
    + by apply suffix_app_r.
Qed.

Section ExecutorMore.
Context {W T : Type}.
Variable apiKeys : list string.

Implicit Types (apiLogic : ApiLogic (W:=W) T) (s : Machine (W:=W)).

Lemma nextIndices_snoc (n c : nat) :
  c < length apiKeys →
  (KeyManager.nextIndices apiKeys (S n) c).1
    = c :: (KeyManager.nextIndices apiKeys n ((c + 1) mod length apiKeys)).1.
Proof.
  intros Hc. cbn [KeyManager.nextIndices KeyManager.getNextKey].
  by destruct (KeyManager.nextIndices _ _ _).
Qed.





(** The loop when the keys under the next [k] cursor positions refuse for
    quota and the one after them serves the operation. *)
Lemma geminiApiLoop_first_working apiLogic (k : nat) (result : T) :
  ∀ (remaining : nat) lastError s,
    currentKeyIndex s < length apiKeys →
    k < remaining →
    (∀ j w, j < k → ∃ error w',
       apiLogic (apiKeys !! ((currentKeyIndex s + j) mod length apiKeys)) w
         = (Throw error, w') ∧ isRateLimitError error = true) →
    (∀ w, ∃ w',
       apiLogic (apiKeys !! ((currentKeyIndex s + k) mod length apiKeys)) w
         = (Ok result, w')) →
    ∃ s',
      geminiApiLoop apiKeys apiLogic remaining lastError s = (Ok result, s') ∧
      trace s' = trace s ++
        attemptsAt apiKeys
          (KeyManager.nextIndices apiKeys (S k) (currentKeyIndex s)).1 ∧
      currentKeyIndex s' = (currentKeyIndex s + S k) mod length apiKeys.
Proof.
  induction k as [|k IH]; intros remaining lastError s Hc Hk Hrefuse Hserve;
    (destruct remaining as [|n]; [lia|]);
    cbn [geminiApiLoop KeyManager.getNextKey].
  - set (s1 := emit _ (setKeyIndex _ s)).
    destruct (Hserve (world s1)) as [w' Hop].
    rewrite Nat.add_0_r, Nat.mod_small in Hop by done.
    rewrite Hop. eexists. split; [done|]. by cbn.
  - set (s1 := emit _ (setKeyIndex _ s)).
    destruct (Hrefuse 0 (world s1)) as (error & w' & Hop & Hrate); [lia|].
    rewrite Nat.add_0_r, Nat.mod_small in Hop by done.
    rewrite Hop, Hrate.
    assert (Hnext : (currentKeyIndex s + 1) mod length apiKeys < length apiKeys)
      by (apply Nat.mod_upper_bound; lia).
    destruct (IH n error (setWorld w' s1)) as (s' & Hrun & Htrace & Hcur).
    + done.
    + lia.
    + intros j w Hj. cbn. rewrite Nat.Div0.add_mod_idemp_l.
      replace (currentKeyIndex s + 1 + j) with (currentKeyIndex s + S j) by lia.
      apply Hrefuse. lia.
    + intros w. cbn. rewrite Nat.Div0.add_mod_idemp_l.
      replace (currentKeyIndex s + 1 + k) with (currentKeyIndex s + S k) by lia.
      apply Hserve.
    + exists s'. split; [done|].
      cbn [trace currentKeyIndex setWorld emit setKeyIndex s1] in Htrace, Hcur.
      split.
      * rewrite Htrace, (nextIndices_snoc (S k)) by done. unfold attemptsAt.
        by rewrite <- app_assoc.
      * rewrite Hcur, Nat.Div0.add_mod_idemp_l. f_equal. lia.
Qed.


(** X5. The cursor is not reset between calls: [n] calls in a row of an
    operation that every key serves succeed with one invocation each, on the
    [n] pool positions that [n] calls of [getNextKey] return.  With [n] the
    size of the pool, every key of the pool serves exactly one call. *)
Theorem successive_calls_rotate apiLogic (result : T) (n : nat) s :
  currentKeyIndex s < length apiKeys →
  (∀ key w, ∃ w', apiLogic key w = (Ok result, w')) →
  let indices := (KeyManager.nextIndices apiKeys n (currentKeyIndex s)).1 in
  (callTimes apiKeys apiLogic n s).1 = replicate n (Ok result) ∧
  trace (callTimes apiKeys apiLogic n s).2
    = trace s ++ attemptsAt apiKeys indices ∧
  currentKeyIndex (callTimes apiKeys apiLogic n s).2
    = (currentKeyIndex s + n) mod length apiKeys ∧
  (n = length apiKeys → indices ≡ₚ seq 0 (length apiKeys)).
Proof.
  intros Hc Hserve indices. subst indices.
  split; [|split; [|split]].
  4: { intros ->. rewrite nextIndices_spec by done. by apply round_permutation. }
  all: revert s Hc; induction n as [|n IH]; intros s Hc;
    [cbn; by rewrite ?app_nil_r, ?Nat.add_0_r, ?Nat.mod_small|];
    cbn [callTimes];
    destruct (geminiApiLoop_first_working apiLogic 0 result
                (length apiKeys) noKeysAvailable s)
      as (s' & Hrun & Htrace & Hcur);
    [done|lia|intros j w Hj; lia|intros w; apply Hserve|];
    unfold geminiApiCall, KeyManager.getTotalKeys; rewrite Hrun;
    assert (Hc' : currentKeyIndex s' < length apiKeys)
      by (rewrite Hcur; apply Nat.mod_upper_bound; lia);
    specialize (IH s' Hc');
    destruct (callTimes apiKeys apiLogic n s') as [rs s''];
    cbn [fst snd] in *.
  - by rewrite IH.
  - rewrite IH, Htrace, (nextIndices_snoc n) by done. cbn [KeyManager.nextIndices].
    unfold attemptsAt. cbn [KeyManager.getNextKey fst fmap list_fmap].
    rewrite <- app_assoc. cbn [app]. do 3 f_equal. rewrite Hcur. f_equal.
  - rewrite IH, Hcur, Nat.Div0.add_mod_idemp_l. f_equal. lia.
Qed.

End ExecutorMore.




Lemma successive_calls_rotate_witness :
  trace (callTimes Sample.pool (More.serving "page") 3 (Sample.machine [])).2
  = [Attempt 0 (Some "key-A"); Attempt 1 (Some "key-B");
     Attempt 2 (Some "key-C")].
Proof.
  refine (proj1 (proj2
    (successive_calls_rotate Sample.pool (More.serving "page") "page" 3
       (Sample.machine []) _ _))).
  - simpl. lia.
  - intros key w. exists (S w). reflexivity.
Defined.

(* ================================================================== *)
(** ** Further properties of the services *)
(* ================================================================== *)

Section SplitOn.

Lemma splitOn_nonempty (sep : ascii) (s : string) : splitOn sep s ≠ [].
Proof.
  destruct s as [|c t]; [done|]. cbn [splitOn]. case_decide; [done|].
  by destruct (splitOn sep t).
Qed.

Lemma splitOn_free (s : string) :
  commaFree s → splitOn "," s = [s].
Proof.
  unfold commaFree. induction s as [|c t IH]; intros Hfree; [done|].
  cbn in Hfree. apply Forall_cons in Hfree as [Hc Ht].
  cbn [splitOn]. rewrite decide_False by done. by rewrite IH.
Qed.

Lemma splitOn_comma (a t : string) :
  commaFree a → splitOn "," (a +:+ "," +:+ t) = a :: splitOn "," t.
Proof.
  unfold commaFree. induction a as [|c a IH]; intros Hfree; [done|].
  cbn in Hfree. apply Forall_cons in Hfree as [Hc Ha].
  change (String c a +:+ "," +:+ t) with (String c (a +:+ "," +:+ t)).
  cbn [splitOn]. rewrite decide_False by done. by rewrite IH.
Qed.

(** The payload behind the one comma of a data URL. *)
Lemma fileToBase64_data_url (a b : string) :
  commaFree a → commaFree b → fileToBase64 (a +:+ "," +:+ b) = b.
Proof.
  intros Ha Hb. unfold fileToBase64.
  rewrite splitOn_comma, splitOn_free by done.
  by rewrite decide_True by (cbn; lia).
Qed.

(** X6. [fileToBase64] on a string without comma gives the string back; on
    a prefix and a payload without commas joined by a comma it gives the
    payload; and what follows a second comma is cut off. *)
Theorem fileToBase64_payload (a b : string) :
  commaFree a → commaFree b →
  fileToBase64 a = a ∧
  fileToBase64 (a +:+ "," +:+ b) = b ∧
  ∀ c, fileToBase64 (a +:+ "," +:+ b +:+ "," +:+ c) = b.
Proof.
  intros Ha Hb. unfold fileToBase64. split; [|split].
  - rewrite splitOn_free by done. by rewrite decide_False by (cbn; lia).
  - rewrite splitOn_comma, splitOn_free by done.
    by rewrite decide_True by (cbn; lia).
  - intros c. rewrite !splitOn_comma by done.
    pose proof (splitOn_nonempty "," c).
    by rewrite decide_True by (cbn; lia).
Qed.

End SplitOn.

Lemma fileToBase64_payload_witness :
  fileToBase64 "data:image/png;base64,iVBORw0KGgo=" = "iVBORw0KGgo=".
Proof.
  refine (proj1 (proj2
    (fileToBase64_payload "data:image/png;base64" "iVBORw0KGgo=" _ _)));
    unfold commaFree; simpl; repeat constructor; discriminate.
Defined.

Section Base64.

Lemma b64char_not_comma (n : nat) : Js.b64char n ≠ ","%char.
Proof.
  do 64 (destruct n as [|n]; [by vm_compute|]). by vm_compute.
Qed.

Lemma btoaBytes_commaFree (n : nat) : ∀ l : list nat,
  length l ≤ n → commaFree (Js.btoaBytes l).
Proof.
  unfold commaFree.
  induction n as [n IH] using lt_wf_ind. intros l Hlen.
  destruct l as [|a [|b [|c rest]]]; cbn.
  - constructor.
  - repeat (constructor; [by (apply b64char_not_comma || discriminate)|]).
    constructor.
  - repeat (constructor; [by (apply b64char_not_comma || discriminate)|]).
    constructor.
  - repeat (constructor; [by apply b64char_not_comma|]).
    cbn in Hlen. apply (IH (length rest)); lia.
Qed.

Lemma btoa_commaFree (s : string) : commaFree (Js.btoa s).
Proof. by eapply btoaBytes_commaFree. Qed.

(** X7. The placeholder image round-trips through [fileToBase64]: what the
    image request sends for a placeholder that serves as the previous panel
    image is exactly the base64 text of the placeholder's SVG, whatever the
    caption. *)
Theorem fileToBase64_of_placeholder (text : string) :
  fileToBase64 (createPlaceholderSvgDataUrl text)
    = Js.btoa (placeholderSvg text).
Proof.
  unfold createPlaceholderSvgDataUrl.
  change ("data:image/svg+xml;base64," +:+ Js.btoa (placeholderSvg text))
    with ("data:image/svg+xml;base64" +:+ "," +:+ Js.btoa (placeholderSvg text)).
  apply fileToBase64_data_url; [|apply btoa_commaFree].
  unfold commaFree. cbn. repeat constructor; discriminate.
Qed.

End Base64.

Section Sorting.
Implicit Types (p q : StoryPage) (pages : list StoryPage).

Lemma insertByPage_perm p pages : insertByPage p pages ≡ₚ p :: pages.
Proof.
  induction pages as [|q rest IH]; [done|]. cbn.
  destruct (page p <=? page q); [done|].
  by rewrite IH, Permutation_swap.
Qed.

Lemma sortByPage_perm pages : sortByPage pages ≡ₚ pages.
Proof.
  induction pages as [|p rest IH]; [done|]. cbn.
  by rewrite insertByPage_perm, IH.
Qed.

Lemma insertByPage_sorted p pages :
  StronglySorted (λ a b, page a ≤ page b) pages →
  StronglySorted (λ a b, page a ≤ page b) (insertByPage p pages).
Proof.
  induction 1 as [|q rest Hsorted IH Hq]; cbn.
  - repeat constructor.
  - destruct (page p <=? page q) eqn:Hle.
    + apply Nat.leb_le in Hle. constructor; [by constructor|].
      constructor; [done|].
      eapply Forall_impl; [exact Hq|]. intros r Hr. cbn in *. lia.
    + apply Nat.leb_gt in Hle. constructor; [done|].
      rewrite insertByPage_perm. constructor; [lia|done].
Qed.

Lemma sortByPage_sorted pages :
  StronglySorted (λ a b, page a ≤ page b) (sortByPage pages).
Proof.
  induction pages as [|p rest IH]; [constructor|].
  cbn. by apply insertByPage_sorted.
Qed.

Lemma insertByPage_filter (n : nat) p pages :
  filter (λ q, page q = n) (insertByPage p pages)
    = filter (λ q, page q = n) (p :: pages).
Proof.
  induction pages as [|q rest IH]; [done|]. cbn [insertByPage].
  destruct (page p <=? page q) eqn:Hle; [done|].
  apply Nat.leb_gt in Hle.
  rewrite (filter_cons _ q), IH, !(filter_cons _ p), (filter_cons _ q).
  destruct (decide (page q = n)), (decide (page p = n)); (done || lia).
Qed.

Lemma sortByPage_stable (n : nat) pages :
  filter (λ q, page q = n) (sortByPage pages) = filter (λ q, page q = n) pages.
Proof.
  induction pages as [|p rest IH]; [done|]. cbn [sortByPage].
  by rewrite insertByPage_filter, !filter_cons, IH.
Qed.

Lemma sortByPage_sorted_id pages :
  StronglySorted (λ a b, page a ≤ page b) pages → sortByPage pages = pages.
Proof.
  induction 1 as [|p rest Hsorted IH Hp]; [done|].
  cbn. rewrite IH. destruct rest as [|q rest']; [done|]. cbn.
  apply Forall_cons in Hp as [Hpq _].
  by apply Nat.leb_le in Hpq as ->.
Qed.

End Sorting.

Section ScriptService.
Context {W : Type}.
Variable apiKeys : list string.
Variable generateScript :
  option string → string → W → Result (option string) * W.
Variable parseScript : string → option (list StoryPage).

Implicit Types (s : Machine (W:=W)).

Local Abbreviation generateStory' :=
  (generateStory apiKeys generateScript parseScript).

(** X8. A script that [generateStory] returns is the parsed answer of the
    model put in order: the panels are sorted by page number, they are the
    panels that were parsed, panels with the same number keep the order the
    model gave them, and an answer already in order is returned as it is. *)
Theorem generateStory_sorted (chapterText : string) s
    (pages : list StoryPage) s' :
  generateStory' chapterText s = (Ok pages, s') →
  ∃ responseText parsed,
    parseScript responseText = Some parsed ∧
    Js.truthy responseText = true ∧
    pages = sortByPage parsed ∧
    StronglySorted (λ a b, page a ≤ page b) pages ∧
    pages ≡ₚ parsed ∧
    (∀ n, filter (λ q, page q = n) pages = filter (λ q, page q = n) parsed) ∧
    (StronglySorted (λ a b, page a ≤ page b) parsed → pages = parsed).
Proof.
  unfold generateStory, geminiApiCall. intros Hrun.
  destruct (geminiApiLoop _ _ _ _ _) as [[result|error] s1] eqn:Hloop.
  - simplify_eq. apply geminiApiLoop_ok in Hloop as (key & w & w' & Hop).
    unfold storyLogic in Hop.
    destruct (generateScript _ _ _) as [[[text|]|thrown] w1]; cbn in Hop;
      try done.
    destruct (Js.truthy (trim text)) eqn:Htruthy; [|done].
    destruct (parseScript (trim text)) as [parsed|] eqn:Hparse; [|done].
    simplify_eq. exists (trim text), parsed.
    split; [done|]. split; [done|]. split; [done|].
    split; [apply sortByPage_sorted|]. split; [apply sortByPage_perm|].
    split; [intros n; apply sortByPage_stable|apply sortByPage_sorted_id].
  - by destruct (instanceofGeminiApiError error).
Qed.

(** The script service with every key out of quota. *)
Lemma generateStory_exhausted (chapterText : string) s :
  1 ≤ length apiKeys →
  currentKeyIndex s < length apiKeys →
  (∀ key w, ∃ error w',
     generateScript key chapterText w = (Throw error, w') ∧
     isRateLimitError error = true) →
  ∃ s',
    generateStory' chapterText s = (Throw allKeysRateLimited, s') ∧
    trace s' = trace s ++
      attemptsAt apiKeys
        (KeyManager.nextIndices apiKeys (length apiKeys) (currentKeyIndex s)).1 ∧
    storyPages s' = storyPages s ∧
    generationCancelledRef s' = generationCancelledRef s.
Proof.
  intros HN Hc Hquota. unfold generateStory, geminiApiCall.
  edestruct (geminiApiLoop_exhausted apiKeys (storyLogic generateScript
               parseScript chapterText) (KeyManager.getTotalKeys apiKeys))
    as (s' & Hrun & Htrace & _ & Hpages & Hflag).
  - intros key w. destruct (Hquota key w) as (error & w' & Hgen & Hrate).
    exists error, w'. unfold storyLogic. by rewrite Hgen.
  - exact Hc.
  - unfold KeyManager.getTotalKeys. lia.
  - rewrite Hrun. exists s'. split; [done|]. split; [|done].
    rewrite Htrace, nextIndices_spec by done. unfold attemptsAt. cbn [fst].
    by rewrite <- list_fmap_compose.
Qed.

End ScriptService.

Lemma generateStory_sorted_witness :
  ∃ responseText parsed,
    More.parseScript responseText = Some parsed ∧
    [Sample.scripted 1 "one"; Sample.scripted 2 "two"] = sortByPage parsed.
Proof.
  destruct (generateStory_sorted Sample.pool More.scriptBackend More.parseScript
              "chapter" (Sample.machine [])
              [Sample.scripted 1 "one"; Sample.scripted 2 "two"]
              (generateStory Sample.pool More.scriptBackend More.parseScript
                 "chapter" (Sample.machine [])).2)
    as (responseText & parsed & Hparse & _ & Hsorted & _).
  - reflexivity.
  - exists responseText, parsed. split; [exact Hparse | exact Hsorted].
Defined.

Section ServiceErrors.
Context {W : Type}.
Variable apiKeys : list string.
Variable generateContent : option string → Request → W → Result Response * W.
Variable letteringLogic :
  string → list DialogueLine → string → option string → W →
  Result (list LetteringElement) * W.
Variable generateScript :
  option string → string → W → Result (option string) * W.
Variable parseScript : string → option (list StoryPage).

Implicit Types (s : Machine (W:=W)).

Lemma imageCatch_outcome placeholderText unexpected error s :
  match (imageCatch placeholderText unexpected error s).1 with
  | Ok result => result = createPlaceholderSvgDataUrl placeholderText
  | Throw thrown => instanceofGeminiApiError thrown = true
  end.
Proof.
  unfold imageCatch.
  destruct (instanceofGeminiApiError error) eqn:Hinstance; cbn [andb].
  - by destruct (Js.includes _ _).
  - done.
Qed.

(** X9. What the four services can give back, whatever the backend does.
    The two image services return a PNG data URL built from the model's
    answer or the placeholder data URL, in any case a non-empty string; the
    lettering and the script service return what their operation produced;
    and none of the four ever throws anything but a [GeminiApiError]. *)
Theorem services_outcome s :
  (∀ request,
     match (generatePanelImage apiKeys generateContent request s).1 with
     | Ok result =>
         ((∃ data, result = "data:image/png;base64," +:+ data) ∨
          result = createPlaceholderSvgDataUrl "API Limit Reached") ∧
         Js.truthy result = true
     | Throw error => instanceofGeminiApiError error = true
     end) ∧
  (∀ base64ImageData prompt,
     match (editPanelImage apiKeys generateContent base64ImageData prompt s).1 with
     | Ok result =>
         ((∃ data, result = "data:image/png;base64," +:+ data) ∨
          result = createPlaceholderSvgDataUrl "API Limit: Edit Failed") ∧
         Js.truthy result = true
     | Throw error => instanceofGeminiApiError error = true
     end) ∧
  (∀ base64ImageData dialogue narration,
     match (analyzePanelForLettering apiKeys letteringLogic base64ImageData
              dialogue narration s).1 with
     | Ok _ => True
     | Throw error => instanceofGeminiApiError error = true
     end) ∧
  (∀ chapterText,
     match (generateStory apiKeys generateScript parseScript chapterText s).1 with
     | Ok _ => True
     | Throw error => instanceofGeminiApiError error = true
     end).
Proof.
  split; [|split; [|split]].
  - intros request. unfold generatePanelImage, geminiApiCall.
    destruct (geminiApiLoop _ _ _ _ _) as [[result|error] s1] eqn:Hloop.
    + apply geminiApiLoop_ok in Hloop as (key & w & w' & Hop).
      apply imageLogic_ok in Hop as [data ->]. cbn. split; [eauto|done].
    + pose proof (imageCatch_outcome "API Limit Reached"
        "An unexpected error occurred while generating the panel image."
        error s1) as Hcatch.
      destruct (imageCatch _ _ _ _) as [[result|thrown] s2]; cbn in *; [|done].
      subst result. split; [by right|done].
  - intros base64ImageData prompt. unfold editPanelImage, geminiApiCall.
    destruct (geminiApiLoop _ _ _ _ _) as [[result|error] s1] eqn:Hloop.
    + apply geminiApiLoop_ok in Hloop as (key & w & w' & Hop).
      apply imageLogic_ok in Hop as [data ->]. cbn. split; [eauto|done].
    + pose proof (imageCatch_outcome "API Limit: Edit Failed"
        "An unexpected error occurred while editing the panel."
        error s1) as Hcatch.
      destruct (imageCatch _ _ _ _) as [[result|thrown] s2]; cbn in *; [|done].
      subst result. split; [by right|done].
  - intros base64ImageData dialogue narration. unfold analyzePanelForLettering.
    destruct (_ && _); [done|].
    destruct (geminiApiCall _ _ _) as [[result|error] s1]; [done|].
    by destruct (instanceofGeminiApiError error) eqn:Hinstance.
  - intros chapterText. unfold generateStory.
    destruct (geminiApiCall _ _ _) as [[result|error] s1]; [done|].
    by destruct (instanceofGeminiApiError error) eqn:Hinstance.
Qed.


End ServiceErrors.


(* ================================================================== *)
(** ** Further properties of [handleGenerateStory] *)
(* ================================================================== *)

Section PromiseAllMore.
Context {A : Type}.

Lemma length_fulfilled (values : list A) (order : list nat) :
  ∀ slots, length (foldl (fulfil values) slots order) = length slots.
Proof.
  induction order as [|k order IH]; intros slots; [done|].
  cbn [foldl]. by rewrite IH, length_fulfil.
Qed.

(** Whenever [Promise.all] resolves, it resolves to the values of the
    promises in their own order. *)
Lemma promiseAll_Some (values : list A) (order : list nat) (result : list A) :
  promiseAll values order = Some result → result = values.
Proof.
  unfold promiseAll. intros Hall. apply mapM_Some in Hall.
  pose proof (Forall2_length _ _ _ Hall) as Hlen.
  assert (Hslots : length (foldl (fulfil values)
                     (replicate (length values) None) order) = length values).
  { rewrite length_fulfilled. apply length_replicate. }
  apply list_eq. intros k.
  destruct (result !! k) as [y|] eqn:Hy.
  - destruct (Forall2_lookup_r _ _ _ _ _ Hall Hy) as (slot & Hslot & Hid).
    cbn in Hid. subst slot.
    rewrite lookup_fulfilled in Hslot by apply length_replicate.
    destruct (values !! k) as [v|] eqn:Hv.
    + case_decide; [by simplify_eq|].
      apply lookup_replicate in Hslot as [? _]. done.
    + apply lookup_replicate in Hslot as [? _]. done.
  - apply lookup_ge_None in Hy. symmetry. apply lookup_ge_None.
    rewrite Hslots in Hlen. lia.
Qed.

End PromiseAllMore.

Section StoryMore.
Context {W : Type}.
Variable apiKeys : list string.
Variable generateContent : option string → Request → W → Result Response * W.
Variable generateScript :
  option string → string → W → Result (option string) * W.
Variable parseScript : string → option (list StoryPage).

Implicit Types (s : Machine (W:=W)) (pages : list StoryPage).

Local Abbreviation generatePanelImage' := (generatePanelImage apiKeys generateContent).
Local Abbreviation imageIteration' := (imageIteration apiKeys generateContent).
Local Abbreviation imageLoop' := (imageLoop apiKeys generateContent).
Local Abbreviation iterations' := (iterations apiKeys generateContent).
Local Abbreviation handleGenerateStory' :=
  (handleGenerateStory apiKeys generateContent).
Local Abbreviation generateStory' :=
  (generateStory apiKeys generateScript parseScript).

(** X11. With every key out of quota for the script request, generating a
    chapter stops at the script stage: after one attempt per key the user is
    told that all keys reached their daily limit, the panels of the project
    are the ones it had, and the cancellation flag is down again. *)
Theorem handleGenerateStory_script_exhausted (chapterText : string)
    (clickScript : bool) (clicks : nat → bool) (settled : Settled)
    (order : list nat) s :
  1 ≤ length apiKeys →
  currentKeyIndex s < length apiKeys →
  (∀ key w, ∃ error w',
     generateScript key chapterText w = (Throw error, w') ∧
     isRateLimitError error = true) →
  let final :=
    handleGenerateStory' (generateStory' chapterText) clickScript clicks
      settled order s in
  storyPages final = storyPages s ∧
  generationCancelledRef final = false ∧
  trace final = trace s ++
    attemptsAt apiKeys
      (KeyManager.nextIndices apiKeys (length apiKeys) (currentKeyIndex s)).1 ++
    [Alert "Story Script Generation Failed: All available API keys have reached their daily limit. Please try again tomorrow or add new keys."].
Proof.
  intros HN Hc Hquota final. subst final.
  destruct (generateStory_exhausted apiKeys generateScript parseScript
              chapterText (setCancelled false s) HN Hc Hquota)
    as (s' & Hrun & Htrace & Hpages & _).
  unfold handleGenerateStory, awaiting. rewrite Hrun.
  destruct clickScript; cbn; rewrite Htrace, Hpages, <- ?app_assoc; done.
Qed.

Lemma imageLoop_published clicks (remaining : nat) : ∀ (i : nat) pages s,
  storyPages s = pages →
  storyPages (imageLoop' clicks remaining i pages s).2
    = (imageLoop' clicks remaining i pages s).1.
Proof.
  induction remaining as [|n IH]; intros i pages s Hs; [done|].
  cbn [imageLoop]. destruct (generationCancelledRef s); [done|].
  pose proof (imageIteration_published apiKeys generateContent (clicks i) i pages s)
    as Hpub.
  destruct (imageIteration' _ _ _ _) as [pages' s'].
  by apply IH.
Qed.

Lemma letteredPanel_eligible settled (i : nat) (p : StoryPage) :
  lettering p = None →
  is_Some (lettering (letteredPanel settled i p)) →
  letteringEligible (letteredPanel settled i p) = true ∧
  isLettering (letteredPanel settled i p) = Some false.
Proof.
  intros Hnull. unfold letteredPanel, letteringPromise.
  destruct (letteringEligible p) eqn:Heligible.
  - destruct (image p) eqn:Himage; [done|].
    rewrite Hnull. by intros [? ?].
  - rewrite Hnull. by intros [? ?].
Qed.

(** X12. However a run of [handleGenerateStory] whose script stage succeeded
    goes on (cancelled or not, image calls failing or not, lettering calls
    failing, pending or fulfilled in any order), a panel of the project
    that has lettering also has an image, did not fail, and is no longer
    marked as being lettered. *)
Theorem handleGenerateStory_lettering_needs_image
    (generateStory : M (list StoryPage)) (clickScript : bool)
    (clicks : nat → bool) (settled : Settled) (order : list nat) s
    (generated : list StoryPage) s1 :
  generateStory (setCancelled false s) = (Ok generated, s1) →
  Forall (λ p, is_Some (lettering p) →
               letteringEligible p = true ∧ isLettering p = Some false)
    (storyPages
       (handleGenerateStory' generateStory clickScript clicks settled order s)).
Proof.
  intros Hscript. unfold handleGenerateStory, awaiting. rewrite Hscript.
  set (s2 := updateCurrentProject _ _).
  pose proof (imageLoop_lettering_null apiKeys generateContent clicks
                (length generated) 0 (initialPage <$> generated) s2) as Hnull.
  pose proof (imageLoop_published clicks (length generated) 0
                (initialPage <$> generated) s2 eq_refl) as Hpub.
  destruct (imageLoop' _ _ _ _ _) as [pages s3]. cbn [fst snd] in *.
  assert (Hnone : Forall (λ p, lettering p = None) pages).
  { apply Hnull, Forall_fmap, Forall_true. done. }
  assert (Hquiet : Forall (λ p, is_Some (lettering p) →
            letteringEligible p = true ∧ isLettering p = Some false) pages).
  { eapply Forall_impl; [exact Hnone|]. intros p -> [? ?]. done. }
  assert (Hdispatch : ∀ events,
    storyPages (foldl (λ st e, emit e st) s3 events) = storyPages s3).
  { intros events. revert s3 Hpub.
    induction events as [|e events IH]; intros s3 Hpub; [done|].
    cbn [foldl]. by rewrite IH. }
  destruct (generationCancelledRef s3).
  - cbn. by rewrite Hpub.
  - destruct (letteringStage settled order pages) as [final|] eqn:Hstage.
    + cbn. unfold letteringStage in Hstage.
      destruct (promiseAll _ _) as [results|] eqn:Hall; [|done].
      apply promiseAll_Some in Hall. subst results. cbn in Hstage.
      injection Hstage as <-.
      apply Forall_lookup. intros i p' Hp'.
      rewrite lookup_merged in Hp' by apply letteringPromise_index.
      rewrite list_lookup_imap in Hp'.
      destruct (pages !! i) as [p|] eqn:Hp; [|done]. cbn in Hp'.
      injection Hp' as <-.
      eapply Forall_lookup_1 in Hnone; [|done].
      by apply (letteredPanel_eligible settled i p).
    + by rewrite Hdispatch, Hpub.
Qed.

(** X13. Cancel pressed only while the last panel is being generated comes
    too late for the loop: no panel is marked as cancelled, the panel list
    stays the one the passes produced, so a panel whose image call succeeded
    keeps its image and stays marked as waiting for lettering, and the run
    ends without a lettering call. *)
Theorem cancel_during_last_panel (generateStory : M (list StoryPage))
    (clicks : nat → bool) (settled : Settled) (order : list nat) s
    (generated : list StoryPage) s1 :
  generateStory (setCancelled false s) = (Ok generated, s1) →
  generationCancelledRef s1 = false →
  1 ≤ length generated →
  (∀ k, k + 1 < length generated → clicks k = false) →
  clicks (length generated - 1) = true →
  let pages0 := initialPage <$> generated in
  let s2 := updateCurrentProject pages0 s1 in
  let passes := iterations' clicks (length generated) 0 pages0 s2 in
  let final := handleGenerateStory' generateStory false clicks settled order s in
  final = setCancelled false passes.2 ∧
  storyPages final = passes.1 ∧
  dispatches (trace final) = dispatches (trace s1) ∧
  Forall (λ p, lettering p = None) (storyPages final) ∧
  (∀ j p panelImage s', j < length generated →
     (iterations' clicks j 0 pages0 s2).1 !! j = Some p →
     generatePanelImage' (panelRequestAt j (iterations' clicks j 0 pages0 s2).1 p)
       (iterations' clicks j 0 pages0 s2).2 = (Ok panelImage, s') →
     storyPages final !! j = Some (imageReady panelImage p) ∧
     isLettering (imageReady panelImage p) = Some true ∧
     generationFailed (imageReady panelImage p) = generationFailed p).
Proof.
  intros Hscript Hflag Hn Hnone Hclick pages0 s2 passes final.
  destruct (cancel_seen_at clicks (length generated) Hn Hnone Hclick)
    as [Hquiet Hseen].
  assert (Hlen0 : length pages0 = length generated).
  { unfold pages0. by rewrite length_fmap. }
  assert (Hloop : imageLoop' clicks (length generated) 0 pages0 s2 = passes).
  { rewrite <- (Nat.add_0_r (length generated)) at 1.
    rewrite imageLoop_iterations by (done || lia).
    cbn [imageLoop]. fold passes. by destruct passes. }
  assert (Hraised : generationCancelledRef passes.2 = true).
  { unfold passes. rewrite iterations_flag by lia.
    cbn [generationCancelledRef updateCurrentProject emit s2].
    by rewrite Hflag, Hseen. }
  assert (Hfinal : final = setCancelled false passes.2).
  { unfold final, handleGenerateStory, awaiting.
    rewrite Hscript. fold pages0. fold s2. rewrite Hloop.
    destruct passes as [pagesN sN]. cbn [snd] in Hraised. by rewrite Hraised. }
  assert (Hpub : storyPages passes.2 = passes.1).
  { rewrite <- Hloop. by apply imageLoop_published. }
  assert (Hpages : storyPages final = passes.1).
  { by rewrite Hfinal. }
  split; [done|]. split; [done|]. split.
  { rewrite Hfinal. cbn [trace setCancelled]. unfold passes.
    rewrite iterations_dispatches. unfold s2.
    by rewrite updateCurrentProject_dispatches. }
  split.
  { rewrite Hpages, <- Hloop.
    apply imageLoop_lettering_null, Forall_fmap, Forall_true. done. }
  intros j p panelImage s' Hj Hp Hgen.
  split; [|done].
  rewrite Hpages. unfold passes.
  replace (length generated) with (S j + (length generated - S j)) by lia.
  rewrite iterations_app, iterations_earlier by lia.
  replace (S j) with (j + 1) by lia. rewrite iterations_app.
  cbn [iterations Nat.add]. unfold imageIteration, awaiting.
  rewrite Hp, Hgen. destruct (clicks (0 + j)); cbn [fst];
    by rewrite lookup_mapAt_eq, Hp.
Qed.

End StoryMore.

Lemma handleGenerateStory_script_exhausted_witness :
  storyPages
    (handleGenerateStory Sample.pool Sample.painting
       (generateStory Sample.pool More.quotaScript More.parseScript "chapter")
       false Sample.never Sample.settled [] (Sample.machine [Sample.finished]))
  = [Sample.finished].
Proof.
  refine (proj1
    (handleGenerateStory_script_exhausted Sample.pool Sample.painting
       More.quotaScript More.parseScript "chapter" false Sample.never
       Sample.settled [] (Sample.machine [Sample.finished]) _ _ _)).
  - simpl. lia.
  - simpl. lia.
  - intros key w. exists Sample.quotaError, (S w). split; reflexivity.
Defined.

Lemma handleGenerateStory_lettering_needs_image_witness :
  Forall (λ p, is_Some (lettering p) →
               letteringEligible p = true ∧ isLettering p = Some false)
    (storyPages
       (handleGenerateStory Sample.pool Sample.painting Sample.scriptService
          false Sample.never Sample.settled [2; 1; 0] (Sample.machine []))).
Proof.
  apply (handleGenerateStory_lettering_needs_image Sample.pool Sample.painting
           Sample.scriptService false Sample.never Sample.settled [2; 1; 0]
           (Sample.machine []) Sample.script
           (setCancelled false (Sample.machine []))).
  reflexivity.
Defined.

Lemma cancel_during_last_panel_witness :
  let final :=
    handleGenerateStory Sample.pool Sample.painting Sample.scriptService false
      More.cancelDuringLast Sample.settled [2; 1; 0] (Sample.machine []) in
  dispatches (trace final) = [] ∧
  Forall (λ p, lettering p = None) (storyPages final).
Proof.
  destruct (cancel_during_last_panel Sample.pool Sample.painting
              Sample.scriptService More.cancelDuringLast Sample.settled
              [2; 1; 0] (Sample.machine []) Sample.script
              (setCancelled false (Sample.machine [])))
    as (_ & _ & Hdispatch & Hnull & _).
  - reflexivity.
  - reflexivity.
  - simpl. lia.
  - intros k Hk. simpl in Hk. unfold More.cancelDuringLast.
    apply bool_decide_eq_false. lia.
  - reflexivity.
  - split; [exact Hdispatch | exact Hnull].
Defined.

(* ================================================================== *)
(** ** Further properties of the single-panel handlers *)
(* ================================================================== *)

Section HandlersMore.
Context {W : Type}.
Variable apiKeys : list string.
Variable generateContent : option string → Request → W → Result Response * W.
Variable letteringLogic :
  string → list DialogueLine → string → option string → W →
  Result (list LetteringElement) * W.

Implicit Types (s : Machine (W:=W)) (pages : list StoryPage).

Local Abbreviation generatePanelImage' := (generatePanelImage apiKeys generateContent).
Local Abbreviation editPanelImage' := (editPanelImage apiKeys generateContent).
Local Abbreviation analyzePanelForLettering' :=
  (analyzePanelForLettering apiKeys letteringLogic).
Local Abbreviation handleRegeneratePanel' :=
  (handleRegeneratePanel apiKeys generateContent letteringLogic).
Local Abbreviation handleEditPanel' :=
  (handleEditPanel apiKeys generateContent letteringLogic).
Local Abbreviation imageIteration' := (imageIteration apiKeys generateContent).
Local Abbreviation imageLoop' := (imageLoop apiKeys generateContent).

(** The lettering service throws nothing but a [GeminiApiError]: its catch
    wraps every other error. *)
Lemma analyzePanelForLettering_throws base64ImageData dialogue narration s
    error :
  (analyzePanelForLettering' base64ImageData dialogue narration s).1
    = Throw error →
  ∃ message userFriendlyMessage,
    error = GeminiApiError message userFriendlyMessage.
Proof.
  unfold analyzePanelForLettering. destruct (_ && _); [done|].
  destruct (geminiApiCall _ _ _) as [[result|caught] s1]; [done|].
  destruct caught; cbn; intros; simplify_eq; eauto.
Qed.

(** X14. A regeneration that fails puts the panel back as it was before the
    attempt, marked as failed with the user-facing message of the error: its
    former image and lettering are kept.  This also holds when the image
    call succeeded and only the lettering call failed, in which case the
    image just generated is dropped.  No other panel changes. *)
Theorem handleRegeneratePanel_failure_restores (pageIndex : nat) s
    (p : StoryPage) (error : JsError) :
  storyPages s !! pageIndex = Some p →
  let original := storyPages s in
  let reset := mapAt pageIndex regenerateReset original in
  let s1 := updateCurrentProject reset s in
  let request := panelRequestAt pageIndex original p in
  ((generatePanelImage' request s1).1 = Throw error ∨
   ∃ panelImage s2,
     generatePanelImage' request s1 = (Ok panelImage, s2) ∧
     (analyzePanelForLettering' panelImage (dialogue p) (narration p)
        (updateCurrentProject
           (mapAt pageIndex (imageReady panelImage) reset) s2)).1
       = Throw error) →
  let final := handleRegeneratePanel' pageIndex s in
  ∃ message reason p',
    error = GeminiApiError message reason ∧
    storyPages final !! pageIndex = Some p' ∧
    p' = regenerateFailed reason p ∧
    image p' = image p ∧
    lettering p' = lettering p ∧
    sameScript p p' ∧
    isGenerating p' = Some false ∧
    isLettering p' = Some false ∧
    generationFailed p' = Some true ∧
    failureReason p' = Some reason ∧
    (∀ j, j ≠ pageIndex → storyPages final !! j = storyPages s !! j).
Proof.
  intros Hp original reset s1 request Hfail final.
  assert (Hgemini : ∃ message reason, error = GeminiApiError message reason).
  { destruct Hfail as [Himage|(panelImage & s2 & _ & Hletter)].
    - destruct (generatePanelImage' request s1) as [r s2] eqn:Hrun.
      cbn in Himage. subst r. by apply generatePanelImage_throws in Hrun.
    - by apply analyzePanelForLettering_throws in Hletter. }
  destruct Hgemini as (message & reason & ->).
  assert (Hfinal : storyPages final
            = mapAt pageIndex (regenerateFailed reason) original).
  { unfold final, handleRegeneratePanel. fold original. unfold original at 1.
    rewrite Hp. fold reset. fold s1. fold request.
    destruct Hfail as [Himage|(panelImage & s2 & Himage & Hletter)].
    - destruct (generatePanelImage' request s1) as [r s2]. cbn in Himage.
      by subst r.
    - rewrite Himage.
      destruct (analyzePanelForLettering' _ _ _ _) as [r s4]. cbn in Hletter.
      by subst r. }
  exists message, reason, (regenerateFailed reason p).
  split; [done|]. split.
  { rewrite Hfinal. unfold original. by rewrite lookup_mapAt_eq, Hp. }
  do 3 (split; [done|]). split; [by repeat split|].
  do 4 (split; [done|]).
  intros j Hj. rewrite Hfinal. by apply lookup_mapAt_ne.
Qed.

(** X15. The edit handler acts only on a panel that has an image: without a
    panel at the index, or with a panel whose image is missing or empty, the
    machine is left exactly as it was (no request, nothing published);
    otherwise the edit starts by publishing the panel list. *)
Theorem handleEditPanel_needs_image (pageIndex : nat) (editPrompt : string) s :
  if Js.truthyOpt (storyPages s !! pageIndex ≫= image)
  then ∃ later,
         trace (handleEditPanel' pageIndex editPrompt s)
           = trace s ++
             Publish (mapAt pageIndex editStarted (storyPages s)) :: later
  else handleEditPanel' pageIndex editPrompt s = s.
Proof.
  unfold handleEditPanel, editCatch, editPanelImage, analyzePanelForLettering,
    geminiApiCall.
  destruct (storyPages s !! pageIndex) as [p|] eqn:Hp; [|done]. cbn.
  destruct (image p) as [pageImage|]; [|done]. cbn.
  destruct (Js.truthy pageImage) eqn:Htruthy; [|done]. cbn [negb].
  - 
    set (s1 := updateCurrentProject _ s).
    assert (Hstart : trace s1
              = trace s ++ [Publish (mapAt pageIndex editStarted (storyPages s))])
      by done.
    assert (Hgrow : ∀ st : Machine (W:=W), trace s1 `prefix_of` trace st →
              ∃ later, trace st = trace s ++
                Publish (mapAt pageIndex editStarted (storyPages s)) :: later).
    { intros st [later Hlater]. exists later.
      by rewrite Hlater, Hstart, <- app_assoc. }
    destruct (geminiApiLoop _ _ _ _ s1) as [[editedImage|error] s2] eqn:Hedit;
      apply geminiApiLoop_trace in Hedit.
    + set (s3 := updateCurrentProject _ s2).
      assert (Hs3 : trace s1 `prefix_of` trace s3).
      { etrans; [exact Hedit|]. by apply prefix_app_r. }
      destruct (_ && _).
      * apply Hgrow. etrans; [exact Hs3|]. by apply prefix_app_r.
      * destruct (geminiApiLoop _ _ _ _ s3) as [[letteringData|error] s4]
          eqn:Hletter; apply geminiApiLoop_trace in Hletter.
        -- apply Hgrow. etrans; [exact Hs3|]. etrans; [exact Hletter|].
           by apply prefix_app_r.
        -- destruct (instanceofGeminiApiError error); apply Hgrow;
             (etrans; [exact Hs3|]); (etrans; [exact Hletter|]);
             cbn; rewrite <- app_assoc; by apply prefix_app_r.
    + destruct (imageCatch _ _ _ _) as [[editedImage|thrown] s2'] eqn:Hcatch;
        apply imageCatch_frame in Hcatch; subst s2'.
      * set (s3 := updateCurrentProject _ s2).
        assert (Hs3 : trace s1 `prefix_of` trace s3).
        { etrans; [exact Hedit|]. by apply prefix_app_r. }
        destruct (_ && _).
        -- apply Hgrow. etrans; [exact Hs3|]. by apply prefix_app_r.
        -- destruct (geminiApiLoop _ _ _ _ s3) as [[letteringData|error'] s4]
             eqn:Hletter; apply geminiApiLoop_trace in Hletter.
           ++ apply Hgrow. etrans; [exact Hs3|]. etrans; [exact Hletter|].
              by apply prefix_app_r.
           ++ destruct (instanceofGeminiApiError error'); apply Hgrow;
                (etrans; [exact Hs3|]); (etrans; [exact Hletter|]);
                cbn; rewrite <- app_assoc; by apply prefix_app_r.
      * apply Hgrow. etrans; [exact Hedit|].
        cbn. rewrite <- app_assoc. by apply prefix_app_r.
Qed.

(** X16. An edit whose image call succeeds replaces the image of the panel
    even when the lettering pass that follows fails: the panel then holds the
    edited image without lettering, both progress flags cleared, and the
    failure is reported; when the lettering pass succeeds the panel holds the
    edited image with the lettering computed for it.  The former image is
    not restored in either case. *)
Theorem handleEditPanel_after_image (pageIndex : nat) (editPrompt : string) s
    (p : StoryPage) (pageImage editedImage : string) s2 :
  storyPages s !! pageIndex = Some p →
  image p = Some pageImage →
  Js.truthy pageImage = true →
  let started := mapAt pageIndex editStarted (storyPages s) in
  let ready := mapAt pageIndex (imageReady editedImage) started in
  editPanelImage' pageImage editPrompt (updateCurrentProject started s)
    = (Ok editedImage, s2) →
  let lettered :=
    analyzePanelForLettering' editedImage (dialogue p) (narration p)
      (updateCurrentProject ready s2) in
  let final := handleEditPanel' pageIndex editPrompt s in
  ∃ p',
    storyPages final !! pageIndex = Some p' ∧
    image p' = Some editedImage ∧
    isGenerating p' = Some false ∧
    isLettering p' = Some false ∧
    lettering p' =
      match lettered.1 with
      | Ok letteringData => Some letteringData
      | Throw _ => None
      end ∧
    match lettered.1 with
    | Ok _ => trace final = trace lettered.2 ++ [Publish (storyPages final)]
    | Throw error =>
        trace final = trace lettered.2 ++
          [Alert (editAlert pageIndex error);
           Publish (storyPages final)]
    end.
Proof.
  intros Hp Himage Htruthy started ready Hedit lettered final.
  subst final lettered. unfold handleEditPanel, editCatch.
  rewrite Hp, Himage, Htruthy. cbn [negb]. fold started. rewrite Hedit.
  fold ready.
  destruct (analyzePanelForLettering' _ _ _ _) as [[letteringData|error] s4]
    eqn:Hletter; cbn [fst snd storyPages updateCurrentProject emit trace].
  - eexists. split.
    { unfold ready, started. by rewrite !lookup_mapAt_eq, Hp. }
    by do 4 (split; [done|]).
  - eexists. split.
    { unfold ready, started. by rewrite !lookup_mapAt_eq, Hp. }
    do 4 (split; [done|]). by rewrite <- app_assoc.
Qed.

(** X17. The key cursor stays inside the pool: from a cursor in range, it is
    in range again after a regeneration, after an edit and after the image
    loop of a chapter, whatever the backend answered. *)
Theorem cursor_stays_in_range s :
  1 ≤ length apiKeys →
  currentKeyIndex s < length apiKeys →
  (∀ pageIndex,
     currentKeyIndex
       (handleRegeneratePanel apiKeys generateContent letteringLogic
          pageIndex s) < length apiKeys) ∧
  (∀ pageIndex editPrompt,
     currentKeyIndex
       (handleEditPanel apiKeys generateContent letteringLogic
          pageIndex editPrompt s) < length apiKeys) ∧
  (∀ clicks remaining i pages,
     currentKeyIndex
       (imageLoop apiKeys generateContent clicks remaining i pages s).2
       < length apiKeys).
Proof.
  intros HN Hc.
  assert (Himage : ∀ request st r st',
    currentKeyIndex st < length apiKeys →
    generatePanelImage' request st = (r, st') →
    currentKeyIndex st' < length apiKeys).
  { intros request st r st' Hst. unfold generatePanelImage, geminiApiCall.
    destruct (geminiApiLoop _ _ _ _ _) as [[ok|e] st1] eqn:Hloop;
      apply geminiApiLoop_cursor in Hloop; try done.
    - by intros [= <- <-].
    - intros Hcatch. apply imageCatch_frame in Hcatch. by subst. }
  assert (Hedit : ∀ pageImage prompt st r st',
    currentKeyIndex st < length apiKeys →
    editPanelImage' pageImage prompt st = (r, st') →
    currentKeyIndex st' < length apiKeys).
  { intros pageImage prompt st r st' Hst. unfold editPanelImage, geminiApiCall.
    destruct (geminiApiLoop _ _ _ _ _) as [[ok|e] st1] eqn:Hloop;
      apply geminiApiLoop_cursor in Hloop; try done.
    - by intros [= <- <-].
    - intros Hcatch. apply imageCatch_frame in Hcatch. by subst. }
  assert (Hletter : ∀ img d n st r st',
    currentKeyIndex st < length apiKeys →
    analyzePanelForLettering' img d n st = (r, st') →
    currentKeyIndex st' < length apiKeys).
  { intros img d n st r st' Hst. unfold analyzePanelForLettering, geminiApiCall.
    destruct (_ && _); [by intros [= <- <-]|].
    destruct (geminiApiLoop _ _ _ _ _) as [[ok|e] st1] eqn:Hloop;
      apply geminiApiLoop_cursor in Hloop; try done.
    - by intros [= <- <-].
    - destruct (instanceofGeminiApiError e); by intros [= <- <-]. }
  split; [|split].
  - intros pageIndex. unfold handleRegeneratePanel, regenerateCatch.
    destruct (storyPages s !! pageIndex) as [p|]; [|done].
    destruct (generatePanelImage' _ _) as [[panelImage|error] s2] eqn:Hgen;
      apply Himage in Hgen; try done.
    destruct (analyzePanelForLettering' _ _ _ _) as [[data|error] s4] eqn:Hl;
      apply Hletter in Hl; done.
  - intros pageIndex editPrompt. unfold handleEditPanel, editCatch.
    destruct (storyPages s !! pageIndex) as [p|]; [|done].
    destruct (image p) as [pageImage|]; [|done].
    destruct (negb _); [done|].
    destruct (editPanelImage' _ _ _) as [[editedImage|error] s2] eqn:Hed;
      apply Hedit in Hed; try done.
    destruct (analyzePanelForLettering' _ _ _ _) as [[data|error] s4] eqn:Hl;
      apply Hletter in Hl; done.
  - intros clicks remaining. revert s Hc.
    induction remaining as [|n IH]; intros s Hc i pages; [done|].
    cbn [imageLoop]. destruct (generationCancelledRef s); [done|].
    destruct (imageIteration' _ _ _ _) as [pages' s'] eqn:Hiter.
    apply IH. unfold imageIteration, imageIterationCatch, awaiting in Hiter.
    destruct (pages !! i) as [p|]; [|by simplify_eq].
    destruct (generatePanelImage' _ _) as [[panelImage|error] s1] eqn:Hgen;
      apply Himage in Hgen; try done;
      destruct (clicks i); by simplify_eq.
Qed.

(** X18. The continuity reference: the image request for panel [i + 1]
    carries, as the previous panel image, exactly what the pass for panel
    [i] left as the image of panel [i]: the image just generated when that
    pass succeeded, nothing when it failed.  The request for the first
    panel carries none. *)
Theorem previous_panel_image (click : bool) (i : nat) pages
    (p q : StoryPage) s :
  pages !! i = Some p →
  let outcome := generatePanelImage' (panelRequestAt i pages p) s in
  let pages' := (imageIteration' click i pages s).1 in
  reqPreviousPanelImage (panelRequestAt (S i) pages' q)
    = match outcome.1 with
      | Ok panelImage => Some panelImage
      | Throw _ => None
      end ∧
  reqDescription (panelRequestAt (S i) pages' q) = description q ∧
  reqPreviousPanelImage (panelRequestAt 0 pages p) = None.
Proof.
  intros Hp outcome pages'. subst outcome pages'.
  unfold imageIteration, imageIterationCatch, awaiting. rewrite Hp.
  destruct (generatePanelImage' _ _) as [[panelImage|error] s1];
    destruct click; cbn [fst snd panelRequestAt reqPreviousPanelImage
      reqDescription Nat.ltb Nat.leb Nat.sub];
    rewrite Nat.sub_0_r, lookup_mapAt_eq, Hp; done.
Qed.

End HandlersMore.

Lemma handleRegeneratePanel_failure_restores_witness :
  ∃ p',
    storyPages (handleRegeneratePanel Sample.pool Sample.painting
                  More.quotaLetterer 0 (Sample.machine [Sample.finished])) !! 0
      = Some p' ∧
    image p' = image Sample.finished ∧
    lettering p' = lettering Sample.finished ∧
    generationFailed p' = Some true.
Proof.
  edestruct (handleRegeneratePanel_failure_restores Sample.pool Sample.painting
               More.quotaLetterer 0 (Sample.machine [Sample.finished])
               Sample.finished allKeysRateLimited)
    as (message & reason & p' & _ & Hp' & _ & Himage & Hlettering & _ & _ & _
        & Hfailed & _).
  - reflexivity.
  - right. eexists _, _. split; [reflexivity|]. reflexivity.
  - exists p'. repeat split; assumption.
Defined.

Lemma handleEditPanel_after_image_witness :
  ∃ p',
    storyPages (handleEditPanel Sample.pool Sample.painting More.quotaLetterer 0
                  "make it night" (Sample.machine [Sample.finished])) !! 0
      = Some p' ∧
    image p' = Some Sample.painted ∧
    lettering p' = None.
Proof.
  edestruct (λ s2, handleEditPanel_after_image Sample.pool Sample.painting
               More.quotaLetterer 0 "make it night"
               (Sample.machine [Sample.finished]) Sample.finished
               Sample.painted Sample.painted s2)
    as (p' & Hp' & Himage & _ & _ & Hlettering & _).
  - reflexivity.
  - reflexivity.
  - reflexivity.
  - vm_compute. reflexivity.
  - exists p'. split; [exact Hp'|]. split; [exact Himage|]. exact Hlettering.
Defined.

Lemma cursor_stays_in_range_witness :
  currentKeyIndex
    (handleRegeneratePanel Sample.pool Sample.outOfQuota Sample.letterer 0
       (Sample.machine [Sample.failed])) < 3.
Proof.
  refine (proj1 (cursor_stays_in_range Sample.pool Sample.outOfQuota
                   Sample.letterer (Sample.machine [Sample.failed]) _ _) 0).
  - simpl. lia.
  - simpl. lia.
Defined.

Lemma previous_panel_image_witness :
  reqPreviousPanelImage
    (panelRequestAt 1
       (imageIteration Sample.pool Sample.painting false 0
          (initialPage <$> Sample.script) (Sample.machine [])).1
       (initialPage (Sample.scripted 2 "two")))
  = Some Sample.painted.
Proof.
  refine (proj1 (previous_panel_image Sample.pool Sample.painting false 0
                   (initialPage <$> Sample.script)
                   (initialPage (Sample.scripted 1 "one"))
                   (initialPage (Sample.scripted 2 "two"))
                   (Sample.machine []) _)).
  reflexivity.
Defined.

(* ================================================================== *)
(** ** Properties of the lettering edits *)
(* ================================================================== *)

Section EditsMore.
Context {W : Type}.
Implicit Types (s : Machine (W:=W)) (p : StoryPage) (l : list LetteringElement).

Lemma withLettering_same p : withLettering (lettering p) p = p.
Proof. by destruct p. Qed.

Lemma lookup_replaced (pages : list StoryPage) (i j : nat) p p' :
  pages !! i = Some p →
  <[i := p']> pages !! j = if decide (j = i) then Some p' else pages !! j.
Proof.
  intros Hp. case_decide as Hj.
  - subst j. apply list_lookup_insert_eq. by eapply lookup_lt_Some.
  - by apply list_lookup_insert_ne.
Qed.

Lemma filter_keeps_all (elementId : string) l :
  Forall (λ el, elId el ≠ elementId) l →
  filter (λ el, elId el ≠ elementId) l = l.
Proof.
  induction 1 as [|el rest Hel _ IH]; [done|].
  by rewrite filter_cons_True, IH.
Qed.

(** X19. Deleting a lettering element removes every element of the panel
    that carries the id and keeps all the others in their order; the rest of
    the panel and the other panels are untouched, and deleting the same id
    again changes nothing more.  A panel without a lettering list, or an
    index without panel, leaves the machine as it was. *)
Theorem handleDeleteLetteringElement_removes (pageIndex : nat)
    (elementId : string) s p l :
  storyPages s !! pageIndex = Some p →
  lettering p = Some l →
  let final := handleDeleteLetteringElement pageIndex elementId s in
  ∃ l',
    storyPages final !! pageIndex = Some (withLettering (Some l') p) ∧
    Forall (λ el, elId el ≠ elementId) l' ∧
    (∀ el, el ∈ l' ↔ el ∈ l ∧ elId el ≠ elementId) ∧
    l' `sublist_of` l ∧
    (Forall (λ el, elId el ≠ elementId) l → storyPages final = storyPages s) ∧
    (∀ j, j ≠ pageIndex → storyPages final !! j = storyPages s !! j) ∧
    trace final = trace s ++ [Publish (storyPages final)] ∧
    storyPages (handleDeleteLetteringElement pageIndex elementId final)
      = storyPages final.
Proof.
  intros Hp Hl final. subst final. unfold handleDeleteLetteringElement.
  rewrite Hp, Hl. cbn [storyPages updateCurrentProject emit trace].
  exists (filter (λ el, elId el ≠ elementId) l).
  split. { by rewrite (lookup_replaced _ _ _ p), decide_True. }
  split. { apply Forall_forall. intros el Hel.
           by apply list_elem_of_filter in Hel as [? _]. }
  split. { intros el. rewrite list_elem_of_filter. tauto. }
  split. { apply sublist_filter. }
  split.
  { intros Hnone. apply list_insert_id. rewrite Hp. f_equal.
    by rewrite filter_keeps_all, <- Hl, withLettering_same. }
  split. { intros j Hj. by apply list_lookup_insert_ne. }
  split; [done|].
  rewrite (lookup_replaced _ _ _ p), decide_True by done. cbn.
  rewrite list_insert_insert_eq. f_equal.
  rewrite (filter_keeps_all elementId (filter _ l)); [done|].
  apply Forall_forall. intros el Hel.
  by apply list_elem_of_filter in Hel as [? _].
Qed.

(** X20. Adding an element and then deleting it by its id, an id that no
    element of the panel carried before, gives back the lettering the panel
    had; a panel whose lettering was null ends with the empty list instead.
    Nothing else in the project changes. *)
Theorem add_then_delete (id : string) (pageIndex : nat) (type : LetteringType)
    s p :
  storyPages s !! pageIndex = Some p →
  Forall (λ el, elId el ≠ id) (default [] (lettering p)) →
  let final :=
    handleDeleteLetteringElement pageIndex id
      (handleAddLetteringElement id pageIndex type s) in
  storyPages final
    = <[pageIndex := withLettering (Some (default [] (lettering p))) p]>
        (storyPages s) ∧
  (is_Some (lettering p) → storyPages final = storyPages s).
Proof.
  intros Hp Hfresh final. subst final.
  unfold handleDeleteLetteringElement, handleAddLetteringElement.
  rewrite Hp. cbn [storyPages updateCurrentProject emit].
  rewrite (lookup_replaced _ _ _ p), decide_True by done. cbn.
  rewrite list_insert_insert_eq.
  assert (Hfilter : filter (λ el, elId el ≠ id)
            (default [] (lettering p) ++ [newLetteringElement id type])
          = default [] (lettering p)).
  { rewrite filter_app. cbn. rewrite decide_False by (by intros []).
    rewrite app_nil_r. by apply filter_keeps_all. }
  rewrite Hfilter. split; [done|].
  intros [l Hl]. apply list_insert_id. rewrite Hp.
  destruct p. cbn in *. by subst.
Qed.

(** X21. Adding an element appends it to the lettering of the panel (to the
    empty list when the panel had none): the elements already there keep
    their positions, the new one comes last with the id given and the type
    asked for, and only a narration box is created without a tail.  The
    rest of the panel and the other panels are untouched; an index without
    panel leaves the machine as it was. *)
Theorem handleAddLetteringElement_appends (id : string) (pageIndex : nat)
    (type : LetteringType) s :
  let final := handleAddLetteringElement id pageIndex type s in
  match storyPages s !! pageIndex with
  | None => final = s
  | Some p =>
      let before := default [] (lettering p) in
      let el := newLetteringElement id type in
      storyPages final !! pageIndex
        = Some (withLettering (Some (before ++ [el])) p) ∧
      (before ++ [el]) !! length before = Some el ∧
      (∀ k, k < length before → (before ++ [el]) !! k = before !! k) ∧
      elId el = id ∧ elType el = type ∧
      (elTail el = None ↔ type = narrationType) ∧
      (∀ j, j ≠ pageIndex → storyPages final !! j = storyPages s !! j) ∧
      length (storyPages final) = length (storyPages s)
  end.
Proof.
  cbn zeta. unfold handleAddLetteringElement.
  destruct (storyPages s !! pageIndex) as [p|] eqn:Hp; [|done].
  cbn [storyPages updateCurrentProject emit].
  split. { by rewrite (lookup_replaced _ _ _ p), decide_True. }
  split. { by rewrite lookup_app_r, Nat.sub_diag. }
  split. { intros k Hk. by apply lookup_app_l. }
  do 2 (split; [done|]).
  split. { destruct type; cbn; split; done. }
  split. { intros j Hj. by apply list_lookup_insert_ne. }
  apply length_insert.
Qed.

(** X22. An update reaches the first element that carries the id and no
    other: the lettering keeps its length, every other element is as
    before, fields the update does not carry keep their value, and the other
    panels are untouched.  When no element of the panel carries the id the
    machine is left exactly as it was, nothing is published. *)
Theorem handleUpdateLetteringElement_first_match (pageIndex : nat)
    (elementId : string) (updates : LetteringUpdates) s p l :
  storyPages s !! pageIndex = Some p →
  lettering p = Some l →
  let final := handleUpdateLetteringElement pageIndex elementId updates s in
  (Forall (λ el, elId el ≠ elementId) l → final = s) ∧
  (∀ i el,
     l !! i = Some el → elId el = elementId →
     (∀ j el', j < i → l !! j = Some el' → elId el' ≠ elementId) →
     ∃ l',
       storyPages final !! pageIndex = Some (withLettering (Some l') p) ∧
       length l' = length l ∧
       l' !! i = Some (applyUpdates el updates) ∧
       (∀ j, j ≠ i → l' !! j = l !! j) ∧
       (updates = noUpdates → l' = l) ∧
       (∀ j, j ≠ pageIndex → storyPages final !! j = storyPages s !! j) ∧
       trace final = trace s ++ [Publish (storyPages final)]).
Proof.
  intros Hp Hl final. subst final. unfold handleUpdateLetteringElement.
  rewrite Hp, Hl. split.
  - intros Hnone.
    assert (list_find (λ el, elId el = elementId) l = None) as ->; [|done].
    apply list_find_None. eapply Forall_impl; [exact Hnone|]. by intros el ?.
  - intros i el Hi Hid Hfirst.
    assert (list_find (λ el, elId el = elementId) l = Some (i, el)) as ->.
    { apply list_find_Some. split; [done|]. split; [done|].
      intros j y Hy Hj. by apply (Hfirst j). }
    cbn [storyPages updateCurrentProject emit trace].
    exists (<[i := applyUpdates el updates]> l).
    split. { by rewrite (lookup_replaced _ _ _ p), decide_True. }
    split. { apply length_insert. }
    split. { apply list_lookup_insert_eq. by eapply lookup_lt_Some. }
    split. { intros j Hj. by apply list_lookup_insert_ne. }
    split. { intros ->. apply list_insert_id. rewrite Hi. f_equal.
             by destruct el as [? ? ? ? ? ? ? ? ? ? ? ? ? []]. }
    split; [|done]. intros j Hj. by apply list_lookup_insert_ne.
Qed.

End EditsMore.

Lemma handleDeleteLetteringElement_removes_witness :
  ∃ l',
    storyPages (handleDeleteLetteringElement 0 "balloon"
                  (Sample.machine [More.crowded])) !! 0
      = Some (withLettering (Some l') More.crowded) ∧
    Forall (λ el, elId el ≠ "balloon") l'.
Proof.
  destruct (handleDeleteLetteringElement_removes 0 "balloon"
              (Sample.machine [More.crowded]) More.crowded
              [Sample.balloon "first"; Sample.balloon "second";
               newLetteringElement "narrator" narrationType])
    as (l' & Hpage & Hnone & _).
  - reflexivity.
  - reflexivity.
  - exists l'. split; [exact Hpage | exact Hnone].
Defined.

Lemma add_then_delete_witness :
  storyPages
    (handleDeleteLetteringElement 0 "fresh"
       (handleAddLetteringElement "fresh" 0 thoughtType
          (Sample.machine [More.crowded])))
  = [More.crowded].
Proof.
  refine (proj2 (add_then_delete "fresh" 0 thoughtType
                   (Sample.machine [More.crowded]) More.crowded _ _) _).
  - reflexivity.
  - simpl. repeat constructor; discriminate.
  - simpl. eexists. reflexivity.
Defined.

Lemma handleUpdateLetteringElement_first_match_witness :
  ∃ l',
    storyPages (handleUpdateLetteringElement 0 "balloon" More.nudge
                  (Sample.machine [More.crowded])) !! 0
      = Some (withLettering (Some l') More.crowded) ∧
    l' !! 1 = Some (Sample.balloon "second").
Proof.
  destruct (proj2 (handleUpdateLetteringElement_first_match 0 "balloon"
              More.nudge (Sample.machine [More.crowded]) More.crowded
              [Sample.balloon "first"; Sample.balloon "second";
               newLetteringElement "narrator" narrationType]
              eq_refl eq_refl) 0 (Sample.balloon "first"))
    as (l' & Hpage & _ & _ & Hother & _).
  - reflexivity.
  - reflexivity.
  - intros j el' Hj. lia.
  - exists l'. split; [exact Hpage|]. rewrite Hother by lia. reflexivity.
Defined.

(* ================================================================== *)
(** ** Properties of the panel order and of the key test *)
(* ================================================================== *)

Section MoveItem.
Context {A : Type}.
Implicit Types (l : list A) (x : A).

Lemma length_delete_lt l (i : nat) :
  i < length l → length (delete i l) = length l - 1.
Proof. intros Hi. apply length_delete. by apply lookup_lt_is_Some_2. Qed.

Lemma moveItem_Some l (i j : nat) x :
  l !! i = Some x →
  moveItem i j l = Some (take j (delete i l) ++ x :: drop j (delete i l)).
Proof. unfold moveItem. by intros ->. Qed.

Lemma moveItem_length l (i j : nat) l' :
  moveItem i j l = Some l' → length l' = length l.
Proof.
  unfold moveItem. destruct (l !! i) as [x|] eqn:Hx; [|done].
  intros [= <-]. apply lookup_lt_Some in Hx.
  rewrite length_app. cbn. rewrite length_take, length_drop, length_delete_lt by done.
  lia.
Qed.

Lemma moveItem_perm l (i j : nat) l' :
  moveItem i j l = Some l' → l' ≡ₚ l.
Proof.
  unfold moveItem. destruct (l !! i) as [x|] eqn:Hx; [|done].
  intros [= <-].
  rewrite <- Permutation_middle, take_drop.
  symmetry. by apply delete_Permutation.
Qed.

(** Where the moved element lands, and what is around it. *)
Lemma moveItem_lands l (i j : nat) x l' :
  l !! i = Some x →
  moveItem i j l = Some l' →
  l' !! (j `min` (length l - 1)) = Some x ∧
  delete (j `min` (length l - 1)) l' = delete i l.
Proof.
  intros Hx. rewrite (moveItem_Some _ _ _ x) by done. intros [= <-].
  pose proof (lookup_lt_Some _ _ _ Hx) as Hi.
  assert (Hlen : length (take j (delete i l)) = j `min` (length l - 1)).
  { by rewrite length_take, length_delete_lt. }
  rewrite <- Hlen. split.
  - by rewrite list_lookup_middle.
  - by rewrite delete_middle, take_drop.
Qed.

(** Moving an element back to where it came from restores the list. *)
Lemma moveItem_back l (i j : nat) l' :
  i < length l → j < length l →
  moveItem i j l = Some l' → moveItem j i l' = Some l.
Proof.
  intros Hi Hj Hmove.
  destruct (lookup_lt_is_Some_2 l i Hi) as [x Hx].
  destruct (moveItem_lands l i j x l' Hx Hmove) as [Hland Hrest].
  replace (j `min` (length l - 1)) with j in * by lia.
  rewrite (moveItem_Some _ _ _ x) by done. rewrite Hrest. f_equal.
  rewrite delete_take_drop.
  rewrite take_app_le by (rewrite length_take; lia).
  rewrite take_take, Nat.min_id.
  rewrite drop_app_length' by (rewrite length_take; lia).
  by apply take_drop_middle.
Qed.

Lemma moveItem_fmap {B} (f : A → B) l (i j : nat) :
  moveItem i j (f <$> l) = fmap (M:=option) (fmap (M:=list) f) (moveItem i j l).
Proof.
  unfold moveItem. rewrite list_lookup_fmap.
  destruct (l !! i) as [x|]; [|done]. cbn. f_equal.
  by rewrite fmap_app, fmap_cons, fmap_take, fmap_drop, list_fmap_delete.
Qed.

End MoveItem.

Section Reorder.
Context {W : Type}.
Implicit Types (s : Machine (W:=W)) (pages : list StoryPage).

Lemma handleReorderPages_moveItem (dragIndex dropIndex : nat) s :
  handleReorderPages dragIndex dropIndex s
    = (λ newPages, updateCurrentProject (renumber newPages) s)
        <$> moveItem dragIndex dropIndex (storyPages s).
Proof.
  unfold handleReorderPages, moveItem.
  by destruct (storyPages s !! dragIndex).
Qed.

Lemma renumber_numbers pages : page <$> renumber pages = seq 1 (length pages).
Proof.
  unfold renumber. apply list_eq. intros k.
  rewrite list_lookup_fmap, list_lookup_imap.
  destruct (pages !! k) as [p|] eqn:Hp; cbn.
  - rewrite lookup_seq_lt by (by eapply lookup_lt_Some). f_equal. lia.
  - rewrite lookup_seq_ge; [done|]. by apply lookup_ge_None.
Qed.

Lemma renumber_unnumbered pages :
  unnumbered <$> renumber pages = unnumbered <$> pages.
Proof.
  unfold renumber. rewrite fmap_imap.
  rewrite <- (imap_const unnumbered). by apply imap_ext.
Qed.

Lemma renumber_of_unnumbered pages pages' :
  unnumbered <$> pages = unnumbered <$> pages' →
  renumber pages = renumber pages'.
Proof.
  intros Hsame. unfold renumber.
  assert (Himap : ∀ l, imap (λ index p, withPage (index + 1) p) l
                       = imap (λ index p, withPage (index + 1) p) (unnumbered <$> l)).
  { intros l. rewrite imap_fmap. by apply imap_ext. }
  by rewrite (Himap pages), (Himap pages'), Hsame.
Qed.

Lemma renumber_numbered pages :
  page <$> pages = seq 1 (length pages) → renumber pages = pages.
Proof.
  intros Hnum. unfold renumber. apply list_eq. intros k.
  rewrite list_lookup_imap. destruct (pages !! k) as [p|] eqn:Hp; [|done].
  cbn. f_equal.
  assert (page p = k + 1) as <-.
  { assert (Hk : (page <$> pages) !! k = Some (page p))
      by (by rewrite list_lookup_fmap, Hp).
    rewrite Hnum in Hk. apply lookup_seq in Hk as [-> _]. lia. }
  by destruct p.
Qed.

(** X23. Reordering, for a drag that starts on a panel: the project keeps
    the same panels, numbered again 1, 2, ... in their new order; the
    dragged panel lands on the position it was dropped on (the last one when
    the target is past the end) and the other panels keep their order among
    themselves; nothing of a panel but its number changes. *)
Theorem handleReorderPages_renumbers (dragIndex dropIndex : nat) s
    (dragged : StoryPage) :
  storyPages s !! dragIndex = Some dragged →
  ∃ final,
    handleReorderPages dragIndex dropIndex s = Some final ∧
    length (storyPages final) = length (storyPages s) ∧
    page <$> storyPages final = seq 1 (length (storyPages s)) ∧
    unnumbered <$> storyPages final ≡ₚ unnumbered <$> storyPages s ∧
    (let landing := dropIndex `min` (length (storyPages s) - 1) in
     storyPages final !! landing = Some (withPage (landing + 1) dragged) ∧
     unnumbered <$> delete landing (storyPages final)
       = unnumbered <$> delete dragIndex (storyPages s)) ∧
    trace final = trace s ++ [Publish (storyPages final)].
Proof.
  intros Hdrag. rewrite handleReorderPages_moveItem.
  destruct (moveItem dragIndex dropIndex (storyPages s)) as [moved|] eqn:Hmove.
  2: { unfold moveItem in Hmove. by rewrite Hdrag in Hmove. }
  pose proof (moveItem_length _ _ _ _ Hmove) as Hlen.
  destruct (moveItem_lands _ _ _ _ _ Hdrag Hmove) as [Hland Hrest].
  eexists. split; [done|].
  cbn [storyPages updateCurrentProject emit trace].
  split. { unfold renumber. by rewrite length_imap. }
  split. { by rewrite renumber_numbers, Hlen. }
  split. { rewrite renumber_unnumbered.
           by rewrite (moveItem_perm _ _ _ _ Hmove). }
  split; [|done]. split.
  - unfold renumber. by rewrite list_lookup_imap, Hland.
  - by rewrite !list_fmap_delete, renumber_unnumbered, <- !list_fmap_delete, Hrest.
Qed.

(** X24. Dragging a panel to another panel and then dragging it back from
    there restores the order of the panels; when the panels were numbered
    1, 2, ... before, the panel list is exactly the one before the two
    moves. *)
Theorem handleReorderPages_back (dragIndex dropIndex : nat) s :
  dragIndex < length (storyPages s) →
  dropIndex < length (storyPages s) →
  ∃ moved final,
    handleReorderPages dragIndex dropIndex s = Some moved ∧
    handleReorderPages dropIndex dragIndex moved = Some final ∧
    storyPages final = renumber (storyPages s) ∧
    (page <$> storyPages s = seq 1 (length (storyPages s)) →
     storyPages final = storyPages s).
Proof.
  intros Hdrag Hdrop. rewrite handleReorderPages_moveItem.
  destruct (lookup_lt_is_Some_2 _ _ Hdrag) as [dragged Hdragged].
  destruct (moveItem dragIndex dropIndex (storyPages s)) as [l1|] eqn:Hmove.
  2: { unfold moveItem in Hmove. by rewrite Hdragged in Hmove. }
  pose proof (moveItem_back _ _ _ _ Hdrag Hdrop Hmove) as Hback.
  assert (Hback' : moveItem dropIndex dragIndex (renumber l1)
            = Some (take dragIndex (delete dropIndex (renumber l1)) ++
                    default dragged (renumber l1 !! dropIndex)
                      :: drop dragIndex (delete dropIndex (renumber l1)))).
  { unfold moveItem.
    destruct (renumber l1 !! dropIndex) as [x|] eqn:Hx; [done|].
    apply lookup_ge_None in Hx. unfold renumber in Hx.
    rewrite length_imap, (moveItem_length _ _ _ _ Hmove) in Hx. lia. }
  eexists _, _. split; [done|].
  rewrite handleReorderPages_moveItem.
  cbn [storyPages updateCurrentProject emit fmap option_fmap option_map].
  rewrite Hback'. cbn. split; [done|].
  assert (Hsame : renumber (take dragIndex (delete dropIndex (renumber l1)) ++
                    default dragged (renumber l1 !! dropIndex)
                      :: drop dragIndex (delete dropIndex (renumber l1)))
                  = renumber (storyPages s)).
  { apply renumber_of_unnumbered.
    assert (Hu : moveItem dropIndex dragIndex (unnumbered <$> renumber l1)
              = Some (unnumbered <$> storyPages s)).
    { by rewrite renumber_unnumbered, moveItem_fmap, Hback. }
    rewrite moveItem_fmap, Hback' in Hu. by injection Hu. }
  split; [done|].
  intros Hnum. rewrite Hsame. by apply renumber_numbered.
Qed.

End Reorder.

Section KeyTest.

Lemma length_substring (n : nat) : ∀ (s : string),
  String.length (String.substring 0 n s) ≤ n.
Proof.
  induction n as [|n IH]; intros [|c s]; cbn; try lia.
  specialize (IH s). lia.
Qed.

(** X25. The key test reports on every key of the pool, in the order of the
    pool and whatever the order in which the probes finish: entry [i] is
    named after position [i + 1], is ok exactly when the probe of that key
    succeeded, and carries a message of at most 100 characters; a probe
    refused for quota is reported as such even when its text also says that
    the key is not valid. *)
Theorem testApiKeys_reports_every_key (apiKeys : list string)
    (probe : nat → string → Result unit) (order : list nat) :
  order ≡ₚ seq 0 (length apiKeys) →
  ∃ statuses,
    testApiKeys apiKeys probe order = Some statuses ∧
    length statuses = length apiKeys ∧
    ∀ i key, apiKeys !! i = Some key →
      ∃ entry,
        statuses !! i = Some entry ∧
        keyIdentifier entry = "API Key " +:+ pretty (i + 1) ∧
        (status entry = statusOk ↔ ∃ u, probe i key = Ok u) ∧
        String.length (statusMessage entry) ≤ 100 ∧
        (∀ error, probe i key = Throw error →
           instanceofError error = true → isRateLimitError error = true →
           statusMessage entry = "Quota limit reached.").
Proof.
  intros Hperm. unfold testApiKeys, KeyManager.getApiKeys.
  rewrite promiseAll_permutation by (by rewrite length_imap).
  eexists. split; [done|]. split; [apply length_imap|].
  intros i key Hkey. exists (keyStatus probe i key).
  split. { by rewrite list_lookup_imap, Hkey. }
  unfold keyStatus. destruct (probe i key) as [u|error] eqn:Hprobe; cbn.
  - split; [done|]. split; [split; eauto|]. split; [lia|]. done.
  - split; [done|]. split.
    { split; [done|]. by intros [u ?]. }
    split.
    { unfold probeMessage. repeat case_match; cbn; try lia.
      apply length_substring. }
    intros error' [= <-] Herr Hrate. unfold probeMessage.
    by rewrite Herr, Hrate.
Qed.

End KeyTest.

Lemma handleReorderPages_renumbers_witness :
  ∃ final,
    handleReorderPages 0 2 (Sample.machine Sample.script) = Some final ∧
    page <$> storyPages final = [1; 2; 3] ∧
    description <$> storyPages final = ["two"; "three"; "one"].
Proof.
  destruct (handleReorderPages_renumbers 0 2 (Sample.machine Sample.script)
              (Sample.scripted 1 "one"))
    as (final & Hrun & _ & Hnumbers & _).
  - reflexivity.
  - exists final. split; [exact Hrun|]. split; [exact Hnumbers|].
    vm_compute in Hrun. injection Hrun as <-. reflexivity.
Defined.

Lemma handleReorderPages_back_witness :
  ∃ moved final,
    handleReorderPages 0 2 (Sample.machine Sample.script) = Some moved ∧
    handleReorderPages 2 0 moved = Some final ∧
    storyPages final = Sample.script.
Proof.
  destruct (handleReorderPages_back 0 2 (Sample.machine Sample.script))
    as (moved & final & Hmoved & Hfinal & _ & Hsame).
  - simpl. lia.
  - simpl. lia.
  - exists moved, final. split; [exact Hmoved|]. split; [exact Hfinal|].
    apply Hsame. reflexivity.
Defined.

Lemma testApiKeys_reports_every_key_witness :
  ∃ statuses,
    testApiKeys Sample.pool More.probe [1; 2; 0] = Some statuses ∧
    length statuses = 3.
Proof.
  destruct (testApiKeys_reports_every_key Sample.pool More.probe [1; 2; 0])
    as (statuses & Hrun & Hlen & _).
  - change (seq 0 (length Sample.pool)) with [0; 1; 2].
    apply perm_trans with [1; 0; 2].
    + apply perm_skip, perm_swap.
    + apply perm_swap.
  - exists statuses. split; [exact Hrun | exact Hlen].
Defined.

(* ================================================================== *)
(** ** A chapter that goes through *)
(* ================================================================== *)

Section Chapter.
Context {W : Type}.
Variable apiKeys : list string.
Variable generateContent : option string → Request → W → Result Response * W.

Implicit Types (s : Machine (W:=W)) (pages : list StoryPage).

Local Abbreviation generatePanelImage' := (generatePanelImage apiKeys generateContent).
Local Abbreviation imageIteration' := (imageIteration apiKeys generateContent).
Local Abbreviation imageLoop' := (imageLoop apiKeys generateContent).
Local Abbreviation iterations' := (iterations apiKeys generateContent).
Local Abbreviation handleGenerateStory' :=
  (handleGenerateStory apiKeys generateContent).

(** The backend answers every image request with an image. *)
Hypothesis paints : ∀ key request w, ∃ parts data w',
  generateContent key request w = (Ok (Some parts), w') ∧
  firstInlineData parts = Some data.





End Chapter.

